(** * tcache: a stampede-preventing in-memory cache (cache.go)

    Shallow embedding of [Cache] and of its operations [New], [Get],
    [GetAll], [Clear] and [Update].

    Go maps are reference objects.  The value store [items] is therefore a
    location into a heap of maps, so that the snapshot returned by [GetAll]
    and the store of the cache are two distinct objects.  The in-flight
    tracker and the table of wait groups never leave the cache and are kept
    by value; a [nil] map is [None].  A [*sync.WaitGroup] is its counter.

    Every region that the source runs under one of its two locks is one
    atomic action of the monad [M].  The sequential reading of a method is
    the composition of its actions; the concurrent reading interleaves the
    actions of several goroutines (relation [step] below).

    The fetcher is a function of the key and of the state of the world; it
    does not call back into the cache.  Its effect takes place at the call,
    and the fetch is in progress until the matching return step. *)

From stdpp Require Import base option gmap strings list fin_maps.

(** Go's [error] values: the package's sentinel and the errors of callers. *)
Inductive error :=
  | ErrNotInitialized
  | ErrUser (code : nat).

Global Instance error_eq_dec : EqDecision error.
Proof. solve_decision. Defined.

(** How a call ends: it returns, it panics, or it blocks forever. *)
Inductive outcome (A : Type) :=
  | Ret (a : A)
  | Panic (why : string)
  | Deadlock.
Arguments Ret {A} a.
Arguments Panic {A} why.
Arguments Deadlock {A}.

Definition nil_map_write : string := "assignment to entry in nil map".
Definition nil_deref : string := "invalid memory address or nil pointer dereference".
Definition negative_counter : string := "sync: negative WaitGroup counter".

Section tcache.
Context {V W : Type}.

(** [interface{}]: [None] is the nil interface. *)
Abbreviation value := (option V).

Abbreviation loc := nat.
Abbreviation gomap := (gmap string (option V)).

(** Everything outside the cache struct: the heap of maps, the state of the
    outside world that the fetcher reads and writes, and the log of fetcher
    invocations (ghost state, used to count calls). *)
Record Mem := mkMem {
  heap : gmap loc gomap;
  world : W;
  calls : list string
}.

Definition fetcher : Type := string → W → (value * option error) * W.
Definition prewarm : Type := Mem → (option loc * option error) * Mem.

Record Cache := mkCache {
  items : option loc;
  fetch : option fetcher;
  isBeingFetchedMap : option (gmap string bool);
  isBeingFetchedWG : option (gmap string nat);
  preWarmInit : option prewarm
}.

Record Sys := mkSys { this : Cache; mem : Mem }.

(** The zero value [Cache{}]. *)
Definition zero_Cache : Cache := mkCache None None None None None.

(** ** Field updates *)

Definition set_items (l : option loc) (c : Cache) : Cache :=
  mkCache l (fetch c) (isBeingFetchedMap c) (isBeingFetchedWG c) (preWarmInit c).
Definition set_flags (f : option (gmap string bool)) (c : Cache) : Cache :=
  mkCache (items c) (fetch c) f (isBeingFetchedWG c) (preWarmInit c).
Definition set_wgs (g : option (gmap string nat)) (c : Cache) : Cache :=
  mkCache (items c) (fetch c) (isBeingFetchedMap c) g (preWarmInit c).
Definition set_heap (h : gmap loc gomap) (μ : Mem) : Mem :=
  mkMem h (world μ) (calls μ).

(** [make(map[string]interface{})] and map access through a location. *)
Definition alloc (μ : Mem) : loc * Mem :=
  let l := fresh (dom (heap μ)) in (l, set_heap (<[l := ∅]> (heap μ)) μ).
Definition deref (l : loc) (μ : Mem) : gomap := default ∅ (heap μ !! l).
Definition map_store (l : loc) (k : string) (v : value) (μ : Mem) : Mem :=
  set_heap (<[l := <[k := v]> (deref l μ)]> (heap μ)) μ.

(** The contents of the value store; [None] when [m.items == nil]. *)
Definition items_map (s : Sys) : option gomap :=
  l ← items (this s); Some (deref l (mem s)).

(** [key] is in the value store with value [v]. *)
Definition cached (key : string) (v : value) (s : Sys) : Prop :=
  ∃ its, items_map s = Some its ∧ its !! key = Some v.

(** ** The monad of method bodies *)

Definition M (A : Type) : Type := Sys → outcome A * Sys.

Definition ret {A} (a : A) : M A := λ s, (Ret a, s).
Definition bind {A B} (x : M A) (f : A → M B) : M B :=
  λ s, match x s with
       | (Ret a, s1) => f a s1
       | (Panic w, s1) => (Panic w, s1)
       | (Deadlock, s1) => (Deadlock, s1)
       end.

(** [defer d(); body]: [d] runs when [body] returns and when it panics. *)
Definition defer {A} (d : M unit) (body : M A) : M A :=
  λ s, match body s with
       | (Ret a, s1) =>
           match d s1 with
           | (Ret _, s2) => (Ret a, s2)
           | (Panic w, s2) => (Panic w, s2)
           | (Deadlock, s2) => (Deadlock, s2)
           end
       | (Panic w, s1) => (Panic w, (d s1).2)
       | (Deadlock, s1) => (Deadlock, s1)
       end.

Global Instance M_ret : MRet M := @ret.
Global Instance M_bind : MBind M := λ A B f x, bind x f.

(** ** Atomic actions: one per locked region of the source *)

Inductive probe := NotInit | Hit (v : value) | Miss.

(** [RLock; if m.items == nil ...; value, ok = m.items[key]; RUnlock] *)
Definition read_item (key : string) : M probe :=
  λ s, match items_map s with
       | None => (Ret NotInit, s)
       | Some its =>
           match its !! key with
           | Some v => (Ret (Hit v), s)
           | None => (Ret Miss, s)
           end
       end.

(** [RLock; value = m.items[key]; RUnlock]: reading a nil map or a missing
    key gives the zero value. *)
Definition reread_item (key : string) : M value :=
  λ s, (Ret (default None (its ← items_map s; its !! key)), s).

(** [RLock; beingFetched := m.isBeingFetchedMap[key]; RUnlock] *)
Definition being_fetched (key : string) : M bool :=
  λ s, (Ret (default false (f ← isBeingFetchedMap (this s); f !! key)), s).

(** [Lock; m.isBeingFetchedMap[key] = true; wg := m.isBeingFetchedWG[key];
    if wg == nil { wg = &sync.WaitGroup{}; m.isBeingFetchedWG[key] = wg };
    wg.Add(1); Unlock] *)
Definition mark (key : string) : M unit :=
  λ s, match isBeingFetchedMap (this s) with
       | None => (Panic nil_map_write, s)
       | Some f =>
           let c1 := set_flags (Some (<[key := true]> f)) (this s) in
           match isBeingFetchedWG c1 with
           | None => (Panic nil_map_write, mkSys c1 (mem s))
           | Some g =>
               let n := default 0 (g !! key) in
               (Ret (), mkSys (set_wgs (Some (<[key := S n]> g)) c1) (mem s))
           end
       end.

(** [Lock; m.isBeingFetchedMap[key] = false; Unlock] *)
Definition unmark (key : string) : M unit :=
  λ s, match isBeingFetchedMap (this s) with
       | None => (Panic nil_map_write, s)
       | Some f =>
           (Ret (), mkSys (set_flags (Some (<[key := false]> f)) (this s)) (mem s))
       end.

(** [wg.Done()] on the wait group of [key]. *)
Definition wg_done (key : string) : M unit :=
  λ s, match g ← isBeingFetchedWG (this s); g !! key with
       | None => (Panic nil_deref, s)
       | Some 0 => (Panic negative_counter, s)
       | Some (S n) =>
           (Ret (), mkSys (set_wgs (<[key := n]> <$> isBeingFetchedWG (this s))
                                   (this s)) (mem s))
       end.

(** [m.isBeingFetchedWG[key].Wait()]: returns once the counter is zero; a
    caller that finds it positive is blocked. *)
Definition wg_wait (key : string) : M unit :=
  λ s, match g ← isBeingFetchedWG (this s); g !! key with
       | None => (Panic nil_deref, s)
       | Some 0 => (Ret (), s)
       | Some (S _) => (Deadlock, s)
       end.

(** [value, err = m.fetch(key)], logged. *)
Definition call_fetch (key : string) : M (value * option error) :=
  λ s, match fetch (this s) with
       | None => (Panic nil_deref, s)
       | Some f =>
           let '(r, w) := f key (world (mem s)) in
           (Ret r, mkSys (this s)
                         (mkMem (heap (mem s)) w (calls (mem s) ++ [key])))
       end.

(** [Lock; m.items[key] = value; Unlock] *)
Definition store_item (key : string) (v : value) : M unit :=
  λ s, match items (this s) with
       | None => (Panic nil_map_write, s)
       | Some l => (Ret (), mkSys (this s) (map_store l key v (mem s)))
       end.

(** [m.items = make(map[string]interface{})] *)
Definition reset_items : M unit :=
  λ s, let '(l, μ) := alloc (mem s) in
       (Ret (), mkSys (set_items (Some l) (this s)) μ).

(** The loop [for k, v := range src { dst[k] = v }]. *)
Definition copy_into (src dst : gomap) : gomap :=
  map_fold (λ k v acc, <[k := v]> acc) dst src.

(** ** The methods *)

(** The leader's work in [Get] and [Update], from [mark] to the deferred
    [wg.Done()]. *)
Definition lead (key : string) : M (value * option error) :=
  mark key;;
  defer (wg_done key)
    (r ← call_fetch key;
     match r.2 with
     | Some e => ret r
     | None => store_item key r.1;; unmark key;; ret r
     end).

Definition Get (key : string) : M (value * option error) :=
  p ← read_item key;
  match p with
  | NotInit => ret (None, Some ErrNotInitialized)
  | Hit v => ret (v, None)
  | Miss =>
      beingFetched ← being_fetched key;
      if negb beingFetched then lead key
      else wg_wait key;; v ← reread_item key; ret (v, None)
  end.

Definition GetAll : M (option loc) :=
  λ s, let '(l, μ) := alloc (mem s) in
       match items (this s) with
       | None => (Ret None, mkSys (this s) μ)
       | Some src =>
           (Ret (Some l),
            mkSys (this s)
                  (set_heap (<[l := copy_into (deref src μ) (deref l μ)]> (heap μ)) μ))
       end.

(** [Clear] as it stands at lines 121-126. *)
Definition Clear : M unit := reset_items.

(** The other [Clear] of the file (lines 240-248), which checks first. *)
Definition Clear_checked : M (option error) :=
  λ s, match items (this s) with
       | None => (Ret (Some ErrNotInitialized), s)
       | Some _ => (reset_items;; ret None) s
       end.

Definition Update (key : string) : M (option error) :=
  beingFetched ← being_fetched key;
  if negb beingFetched then r ← lead key; ret r.2
  else
    wg_wait key;;
    r ← call_fetch key;
    match r.2 with
    | Some e => ret (Some e)
    | None => store_item key r.1;; ret None
    end.

Definition New (f : option fetcher) (pw : option prewarm) (μ : Mem)
  : (option Cache * option error) * Mem :=
  match pw with
  | Some p =>
      let '((its, err), μ1) := p μ in
      match err with
      | Some e => ((None, Some e), μ1)
      | None => ((Some (mkCache its f (Some ∅) (Some ∅) pw), None), μ1)
      end
  | None =>
      let '(l, μ1) := alloc μ in
      ((Some (mkCache (Some l) f (Some ∅) (Some ∅) pw), None), μ1)
  end.

End tcache.

(** * Goroutines: the interleaving semantics

    A goroutine running a method is a program point; one step runs one
    atomic action.  A fetch takes two steps, the call and the return, so that
    a fetch in progress is visible in the program point. *)

Section goroutines.
Context {V W : Type}.

Abbreviation fetched_pair := (option V * option error)%type.

Inductive method := InGet | InUpdate.

Inductive retval :=
  | RGet (v : option V) (err : option error)
  | RUpdate (err : option error)
  | RClear
  | RGetAll (snapshot : option nat).

Inductive pc :=
  | GetStart (key : string)
  | GetCheck (key : string)
  | GetWait (key : string)
  | GetReread (key : string)
  | UpdateStart (key : string)
  | UpdateWait (key : string)
  | UpdateCall (key : string)
  | UpdateFetching (key : string) (r : fetched_pair)
  | UpdateStore (key : string) (r : fetched_pair)
  | LeadMark (o : method) (key : string)
  | LeadCall (o : method) (key : string)
  | LeadFetching (o : method) (key : string) (r : fetched_pair)
  | LeadStore (o : method) (key : string) (r : fetched_pair)
  | LeadUnmark (o : method) (key : string) (r : fetched_pair)
  | LeadDone (o : method) (key : string) (r : fetched_pair)
  | ClearStart
  | GetAllStart
  | Returned (r : retval)
  | Crashed (why : string).

Definition leader_result (o : method) (r : fetched_pair) : retval :=
  match o with
  | InGet => RGet r.1 r.2
  | InUpdate => RUpdate r.2
  end.

(** One action outside the scope of a [defer]. *)
Definition act {A} (x : M (V:=V) (W:=W) A) (k : A → pc) (s : Sys)
  : option (pc * Sys (V:=V) (W:=W)) :=
  match x s with
  | (Ret a, s1) => Some (k a, s1)
  | (Panic w, s1) => Some (Crashed w, s1)
  | (Deadlock, _) => None
  end.

(** One action of a leader after [defer wg.Done()]: a panic still runs the
    deferred call. *)
Definition act_deferred {A} (key : string) (x : M (V:=V) (W:=W) A)
    (k : A → pc) (s : Sys) : option (pc * Sys (V:=V) (W:=W)) :=
  match x s with
  | (Ret a, s1) => Some (k a, s1)
  | (Panic w, s1) => Some (Crashed w, (wg_done key s1).2)
  | (Deadlock, _) => None
  end.

Definition tstep (p : pc) (s : Sys) : option (pc * Sys (V:=V) (W:=W)) :=
  match p with
  | GetStart key =>
      act (read_item key)
          (λ r, match r with
                | NotInit => Returned (RGet None (Some ErrNotInitialized))
                | Hit v => Returned (RGet v None)
                | Miss => GetCheck key
                end) s
  | GetCheck key =>
      act (being_fetched key)
          (λ b, if negb b then LeadMark InGet key else GetWait key) s
  | GetWait key => act (wg_wait key) (λ _, GetReread key) s
  | GetReread key => act (reread_item key) (λ v, Returned (RGet v None)) s
  | UpdateStart key =>
      act (being_fetched key)
          (λ b, if negb b then LeadMark InUpdate key else UpdateWait key) s
  | UpdateWait key => act (wg_wait key) (λ _, UpdateCall key) s
  | UpdateCall key => act (call_fetch key) (λ r, UpdateFetching key r) s
  | UpdateFetching key r =>
      Some (match r.2 with
            | Some e => Returned (RUpdate (Some e))
            | None => UpdateStore key r
            end, s)
  | UpdateStore key r =>
      act (store_item key r.1) (λ _, Returned (RUpdate None)) s
  | LeadMark o key => act (mark key) (λ _, LeadCall o key) s
  | LeadCall o key =>
      act_deferred key (call_fetch key) (λ r, LeadFetching o key r) s
  | LeadFetching o key r =>
      Some (match r.2 with
            | Some e => LeadDone o key r
            | None => LeadStore o key r
            end, s)
  | LeadStore o key r =>
      act_deferred key (store_item key r.1) (λ _, LeadUnmark o key r) s
  | LeadUnmark o key r =>
      act_deferred key (unmark key) (λ _, LeadDone o key r) s
  | LeadDone o key r =>
      act (wg_done key) (λ _, Returned (leader_result o r)) s
  | ClearStart => act Clear (λ _, Returned RClear) s
  | GetAllStart => act GetAll (λ l, Returned (RGetAll l)) s
  | Returned _ => None
  | Crashed _ => None
  end.

(** A configuration: the program points of the goroutines and the shared
    state.  A panic in any goroutine ends the program. *)
Definition config : Type := list pc * Sys (V:=V) (W:=W).

Definition crashed (p : pc) : bool :=
  match p with Crashed _ => true | _ => false end.

Definition sched_step (i : nat) (c : config) : option config :=
  if existsb crashed c.1 then None
  else p ← c.1 !! i; '(p', s') ← tstep p c.2; Some (<[i := p']> c.1, s').

(** Run a schedule: the list of goroutine indices, in the order in which
    they take their steps. *)
Fixpoint run_sched (sched : list nat) (c : config) : option config :=
  match sched with
  | [] => Some c
  | i :: rest => c' ← sched_step i c; run_sched rest c'
  end.

Inductive step : config → config → Prop :=
  | step_thread i c c' : sched_step i c = Some c' → step c c'.

(** A goroutine is executing a fetch of [key]. *)
Definition fetching (key : string) (p : pc) : bool :=
  match p with
  | LeadFetching _ k _ | UpdateFetching k _ => bool_decide (k = key)
  | _ => false
  end.

Definition fetches_in_progress (key : string) (c : config) : nat :=
  length (filter (λ p, fetching key p = true) c.1).

(** Run one goroutine alone for at most [n] steps. *)
Fixpoint run_alone (n : nat) (p : pc) (s : Sys) : pc * Sys (V:=V) (W:=W) :=
  match n with
  | 0 => (p, s)
  | S n' =>
      match tstep p s with
      | Some (p', s') => run_alone n' p' s'
      | None => (p, s)
      end
  end.

(** A goroutine at [p] will not write [key] into the value store nor
    replace the store: it is not in [Clear], not in [Update key], and not
    past the miss of a [Get key]. *)
Definition harmless (key : string) (p : pc) : bool :=
  match p with
  | GetStart _ | GetAllStart | Returned _ | Crashed _ => true
  | ClearStart => false
  | GetCheck k | GetWait k | GetReread k
  | UpdateStart k | UpdateWait k | UpdateCall k
  | UpdateFetching k _ | UpdateStore k _
  | LeadMark _ k | LeadCall _ k | LeadFetching _ k _
  | LeadStore _ k _ | LeadUnmark _ k _ | LeadDone _ k _ =>
      bool_decide (k ≠ key)
  end.

(** The program point at which a goroutine running alone comes to rest, for
    each outcome of the sequential reading of its method. *)
Definition final_pc {A} (blocked : pc) (k : A → retval) (o : outcome A) : pc :=
  match o with
  | Ret a => Returned (k a)
  | Panic w => Crashed w
  | Deadlock => blocked
  end.

(** The key whose fetched value the goroutine holds and has yet to store. *)
Definition pending (p : pc) : option string :=
  match p with
  | UpdateFetching k _ | UpdateStore k _
  | LeadFetching _ k _ | LeadStore _ k _ => Some k
  | _ => None
  end.

(** The value store is allocated, and each of its keys was in [base] or has
    been fetched. *)
Definition keys_fetched (base : gmap string (option V))
    (s : Sys (V:=V) (W:=W)) : Prop :=
  (∀ l, items (this s) = Some l → l ∈ dom (heap (mem s)))
  ∧ ∀ k, is_Some (default ∅ (items_map s) !! k) →
         is_Some (base !! k) ∨ k ∈ calls (mem s).

(** The same for a configuration, where the goroutines that hold a fetched
    value hold it for a key that has been fetched. *)
Definition stores_only_fetched (base : gmap string (option V))
    (c : config) : Prop :=
  keys_fetched base c.2
  ∧ Forall (λ p, ∀ k, pending p = Some k → k ∈ calls (mem c.2)) c.1.

(** The counter of the wait group of [key]; zero when there is none. *)
Definition wg_count (key : string) (s : Sys (V:=V) (W:=W)) : nat :=
  default 0 (g ← isBeingFetchedWG (this s); g !! key).

(** A goroutine is a leader for [key] between its [wg.Add(1)] and its
    deferred [wg.Done()]. *)
Definition leading (key : string) (p : pc) : bool :=
  match p with
  | LeadCall _ k | LeadFetching _ k _ | LeadStore _ k _
  | LeadUnmark _ k _ | LeadDone _ k _ => bool_decide (k = key)
  | _ => false
  end.

Fixpoint leaders (key : string) (ps : list pc) : nat :=
  match ps with
  | [] => 0
  | p :: rest => (if leading key p then 1 else 0) + leaders key rest
  end.

Definition one_if (b : bool) : nat := if b then 1 else 0.

(** Every wait-group counter is the number of leaders of its key. *)
Definition counters_match (c : config) : Prop :=
  ∀ key, wg_count key c.2 = leaders key c.1.

(** The goroutine has finished, by returning or by a panic. *)
Definition finished (p : pc) : bool :=
  match p with Returned _ | Crashed _ => true | _ => false end.

End goroutines.

(** * Sequential client programs *)

Section programs.
Context {V W : Type}.

Inductive op :=
  | OpGet (key : string)
  | OpUpdate (key : string)
  | OpClear
  | OpGetAll.

Definition exec (o : op) : M (V:=V) (W:=W) (retval (V:=V)) :=
  match o with
  | OpGet key => r ← Get key; mret (RGet r.1 r.2)
  | OpUpdate key => e ← Update key; mret (RUpdate e)
  | OpClear => Clear;; mret RClear
  | OpGetAll => l ← GetAll; mret (RGetAll l)
  end.

(** The calls of [ops] one after the other; a panic ends the program. *)
Fixpoint execs (ops : list op) : M (V:=V) (W:=W) (list (retval (V:=V))) :=
  match ops with
  | [] => mret []
  | o :: rest => r ← exec o; rs ← execs rest; mret (r :: rs)
  end.




(** The action [x] keeps [key] cached with value [v]. *)
Definition preserves {A} (key : string) (v : option V)
    (x : M (V:=V) (W:=W) A) : Prop :=
  ∀ s, cached key v s → cached key v (x s).2.

(** The in-flight tables exist and no fetch of [key] is pending: the
    counter of its wait group is zero, and the key has a wait group if it is
    marked (the flag is only ever set together with the wait group). *)
Definition idle (key : string) (s : Sys (V:=V) (W:=W)) : Prop :=
  ∃ fl g, isBeingFetchedMap (this s) = Some fl
          ∧ isBeingFetchedWG (this s) = Some g
          ∧ default 0 (g !! key) = 0
          ∧ (default false (fl !! key) = true → is_Some (g !! key)).

(** No wait group has a pending [Add]. *)
Definition quiescent (s : Sys (V:=V) (W:=W)) : Prop :=
  ∀ key, wg_count key s = 0.

End programs.

(** * The draft of lines 192-350

    The other version in the file keeps [New] and has the checked [Clear]
    above.  Its [Get] returns [(value, ok)], stores the error of a failed
    fetch as the value of the key, and does not defer [wg.Done()]; its
    [GetAll] has no nil check.  A stored [interface{}] may hold an [error],
    so the values of the draft are [V + error]. *)

Section draft.
Context {V W : Type}.

(** [_, ok = value.(error)] *)
Definition holds_error (v : option (V + error)) : bool :=
  match v with
  | Some (inr _) => true
  | _ => false
  end.

(** [RLock; value, ok = m.items[key]; RUnlock], with no nil check: a nil
    map reads as a miss. *)
Definition read_item_unchecked (key : string)
  : M (V:=V + error) (W:=W) (option (V + error) * bool) :=
  λ s, (Ret (match its ← items_map s; its !! key with
             | Some v => (v, true)
             | None => (None, false)
             end), s).

(** [Get] of lines 250-299. *)
Definition Get_draft (key : string)
  : M (V:=V + error) (W:=W) (option (V + error) * bool) :=
  '(value, ok) ← read_item_unchecked key;
  if (ok : bool) return M (V:=V + error) (W:=W) (option (V + error) * bool)
  then mret (value, ok)
  else
    beingFetched ← being_fetched key;
    if negb beingFetched
      return M (V:=V + error) (W:=W) (option (V + error) * bool)
    then
      mark key;;
      f ← call_fetch key;
      let r' : option (V + error) * bool :=
        match f.2 with
        | Some err => (Some (inr err), false)
        | None => (f.1, true)
        end in
      store_item key r'.1;;
      unmark key;;
      wg_done key;;
      mret r'
    else
      wg_wait key;;
      v ← reread_item key;
      mret (v, holds_error v).

End draft.

Section draft_snapshot.
Context {V W : Type}.

(** [GetAll] of lines 302-310: ranging over a nil map copies nothing. *)
Definition GetAll_draft : M (V:=V) (W:=W) nat :=
  λ s, let '(l, μ) := alloc (mem s) in
       let src : gmap string (option V) :=
         default ∅ (items_map (mkSys (this s) μ)) in
       (Ret l, mkSys (this s)
                     (set_heap (<[l := copy_into src (deref l μ)]> (heap μ)) μ)).

End draft_snapshot.

(** * A concrete instance

    Values are numbers; the world is the number of fetches made so far.  The
    fetcher fails on the key ["bad"] and otherwise returns the number of
    earlier fetches, so that two fetches of one key give different values. *)

Definition demo_fetch : fetcher (V:=nat) (W:=nat) :=
  λ key n, if bool_decide (key = "bad") then ((None, Some (ErrUser 1)), S n)
           else ((Some n, None), S n).

Definition mem0 : Mem (V:=nat) (W:=nat) := mkMem ∅ 0 [].

(** [cache, _ := New(demo_fetch, nil)] *)
Definition fresh_sys : Sys (V:=nat) (W:=nat) :=
  match New (Some demo_fetch) None mem0 with
  | ((Some c, _), μ) => mkSys c μ
  | _ => mkSys zero_Cache mem0
  end.

(** [cache := &Cache{}] *)
Definition zero_sys : Sys (V:=nat) (W:=nat) := mkSys zero_Cache mem0.


(** A prewarm function that fails. *)
Definition failing_prewarm : prewarm (V:=nat) (W:=nat) :=
  λ μ, ((None, Some (ErrUser 2)), μ).

(** A prewarm function that returns the map [{"1": 7}]. *)
Definition demo_prewarm : prewarm (V:=nat) (W:=nat) :=
  λ μ, let '(l, μ1) := alloc μ in ((Some l, None), map_store l "1" (Some 7) μ1).

Definition prewarmed_sys : Sys (V:=nat) (W:=nat) :=
  match New (Some demo_fetch) (Some demo_prewarm) mem0 with
  | ((Some c, _), μ) => mkSys c μ
  | _ => mkSys zero_Cache mem0
  end.


(** Two goroutines call [Get("k")] on a fresh cache. *)
Definition two_Gets : config (V:=nat) (W:=nat) :=
  ([GetStart "k"; GetStart "k"], fresh_sys).

(** One goroutine calls [Get("k")] and two call [Update("k")]. *)
Definition Get_and_two_Updates : config (V:=nat) (W:=nat) :=
  ([GetStart "k"; UpdateStart "k"; UpdateStart "k"], fresh_sys).

(** A fetcher that fails on its first call and succeeds afterwards. *)
Definition flaky_fetch : fetcher (V:=nat) (W:=nat) :=
  λ key n, match n with
           | 0 => ((None, Some (ErrUser 1)), S n)
           | S _ => ((Some n, None), S n)
           end.

Definition flaky_sys : Sys (V:=nat) (W:=nat) :=
  match New (Some flaky_fetch) None mem0 with
  | ((Some c, _), μ) => mkSys c μ
  | _ => mkSys zero_Cache mem0
  end.

(** The instance for the draft: stored values are numbers or errors. *)
Definition draft_fetch : fetcher (V:=nat + error) (W:=nat) :=
  λ key n, if bool_decide (key = "bad") then ((None, Some (ErrUser 1)), S n)
           else ((Some (inl n), None), S n).

Definition draft_mem0 : Mem (V:=nat + error) (W:=nat) := mkMem ∅ 0 [].

Definition draft_sys : Sys (V:=nat + error) (W:=nat) :=
  match New (Some draft_fetch) None draft_mem0 with
  | ((Some c, _), μ) => mkSys c μ
  | _ => mkSys zero_Cache draft_mem0
  end.

Definition draft_nil_prewarm : prewarm (V:=nat + error) (W:=nat) :=
  λ μ, ((None, None), μ).

Definition draft_nil_sys : Sys (V:=nat + error) (W:=nat) :=
  match New (Some draft_fetch) (Some draft_nil_prewarm) draft_mem0 with
  | ((Some c, _), μ) => mkSys c μ
  | _ => mkSys zero_Cache draft_mem0
  end.

(** One goroutine about to call [Get("a")] and one about to call
    [Get("b")], after a sequential [Get("a")]. *)
Definition Gets_after_fetch : config (V:=nat) (W:=nat) :=
  ([GetStart "a"; GetStart "b"], (Get "a" fresh_sys).2).

(** * Properties of the sequential methods *)

Ltac unfold_M :=
  unfold mbind, M_bind, mret, M_ret, bind, ret, defer in *.

Section facts.
Context {V W : Type}.
Implicit Types (c : Cache (V:=V) (W:=W)) (μ : Mem (V:=V) (W:=W)).
Implicit Types (s : Sys (V:=V) (W:=W)) (key : string).

(** ** The heap *)

Lemma copy_into_empty (src : gmap string (option V)) : copy_into src ∅ = src.
Proof.
  unfold copy_into.
  apply (map_fold_weak_ind (λ r m, r = m)); [done|].
  intros k v m r _ ->. done.
Qed.

Lemma alloc_fresh μ : (alloc μ).1 ∉ dom (heap μ).
Proof. apply is_fresh. Qed.

Lemma alloc_deref_new μ : deref (alloc μ).1 (alloc μ).2 = ∅.
Proof. unfold deref, alloc. simpl. by rewrite lookup_insert_eq. Qed.

Lemma alloc_deref_old μ l :
  l ∈ dom (heap μ) → deref l (alloc μ).2 = deref l μ.
Proof.
  intros Hl. unfold deref, alloc. simpl.
  rewrite lookup_insert_ne; [done|].
  intros <-. by apply (alloc_fresh μ).
Qed.

Lemma map_store_same l k v μ : deref l (map_store l k v μ) = <[k := v]> (deref l μ).
Proof. unfold deref at 1, map_store. simpl. by rewrite lookup_insert_eq. Qed.

Lemma map_store_other l l' k v μ :
  l ≠ l' → deref l' (map_store l k v μ) = deref l' μ.
Proof. intros Hne. unfold deref, map_store. simpl. by rewrite lookup_insert_ne. Qed.

(** ** Cache hits *)

Lemma Get_hit key v s : cached key v s → Get key s = (Ret (v, None), s).
Proof.
  intros (its & Hits & Hk). unfold Get, read_item. unfold_M.
  rewrite Hits. simpl. by rewrite Hk.
Qed.

Lemma Get_nil_items key s :
  items (this s) = None → Get key s = (Ret (None, Some ErrNotInitialized), s).
Proof.
  intros Hnil. unfold Get, read_item, items_map. unfold_M.
  by rewrite Hnil.
Qed.

(** C5: [Get] on a cache whose [items] is nil, such as the zero value
    [Cache{}], returns [ErrNotInitialized] for every key; the state is left
    as it was, so the fetcher has not been invoked. *)
Theorem Get_not_initialized c μ key :
  items c = None →
  Get key (mkSys c μ) = (Ret (None, Some ErrNotInitialized), mkSys c μ)
  ∧ calls (mem (Get key (mkSys c μ)).2) = calls μ.
Proof.
  intros Hnil. rewrite Get_nil_items by done. done.
Qed.




(** ** Snapshots *)

(** C7: [GetAll] on an initialised cache returns a map at a location that
    was not allocated before, hence other than the value store, with the
    contents of the value store; the value store is left as it was; a later
    write into the snapshot leaves the value store unchanged, and a later
    write into the value store or a [Clear] leaves the snapshot unchanged.
    On a cache whose [items] is nil it returns nil. *)
Theorem GetAll_snapshot c μ :
  (∀ l, items c = Some l → l ∈ dom (heap μ)) →
  this (GetAll (mkSys c μ)).2 = c
  ∧ match items c with
    | None => (GetAll (mkSys c μ)).1 = Ret None
    | Some l =>
        ∃ l', (GetAll (mkSys c μ)).1 = Ret (Some l')
              ∧ (l' ∉ dom (heap μ)) ∧ (l' ≠ l)
              ∧ deref l' (mem (GetAll (mkSys c μ)).2) = deref l μ
              ∧ deref l (mem (GetAll (mkSys c μ)).2) = deref l μ
              ∧ (∀ k v, items_map (mkSys c (map_store l' k v
                                     (mem (GetAll (mkSys c μ)).2)))
                        = Some (deref l μ))
              ∧ (∀ k v, deref l' (mem (store_item k v (GetAll (mkSys c μ)).2).2)
                        = deref l μ)
              ∧ deref l' (mem (Clear (GetAll (mkSys c μ)).2).2) = deref l μ
    end.
Proof.
  intros Hwf. unfold GetAll. simpl.
  destruct (items c) as [l|] eqn:Hl; simpl; [|done].
  split; [done|].
  pose proof (alloc_fresh μ) as Hfresh.
  pose proof (alloc_deref_old μ l (Hwf l eq_refl)) as Hold.
  pose proof (alloc_deref_new μ) as Hnew.
  unfold alloc in Hfresh, Hold, Hnew. simpl in Hfresh, Hold, Hnew.
  set (l' := fresh (dom (heap μ))) in *.
  assert (Hne : l' ≠ l) by (intros ->; by apply Hfresh, Hwf).
  rewrite Hold, Hnew, copy_into_empty.
  set (μ2 := set_heap _ (set_heap _ μ)).
  assert (Hsnap : deref l' μ2 = deref l μ).
  { unfold deref at 1, μ2. simpl. by rewrite lookup_insert_eq. }
  assert (Hstore : deref l μ2 = deref l μ).
  { unfold deref at 1, μ2. simpl. by rewrite lookup_insert_ne. }
  exists l'. repeat split; try done.
  - intros k v. unfold items_map. simpl. rewrite Hl. simpl. f_equal.
    by rewrite map_store_other.
  - intros k v. unfold store_item. simpl. rewrite Hl. simpl.
    by rewrite map_store_other.
  - unfold Clear, reset_items. simpl.
    etrans; [apply (alloc_deref_old μ2 l')|exact Hsnap].
    unfold μ2. simpl. rewrite dom_insert_L. set_solver.
Qed.

(** ** Clear *)

Lemma GetAll_contents s l :
  items (this s) = Some l → l ∈ dom (heap (mem s)) →
  ∃ l', (GetAll s).1 = Ret (Some l')
        ∧ deref l' (mem (GetAll s).2) = deref l (mem s).
Proof.
  intros Hl Hdom. unfold GetAll. simpl. rewrite Hl. simpl.
  eexists. split; [done|].
  pose proof (alloc_deref_old (mem s) l Hdom) as Hold.
  pose proof (alloc_deref_new (mem s)) as Hnew.
  unfold alloc in Hold, Hnew. simpl in Hold, Hnew.
  rewrite Hold, Hnew, copy_into_empty.
  unfold deref at 1. simpl. by rewrite lookup_insert_eq.
Qed.

(** C6 does not hold of [Clear] (lines 121-126), which has no result and
    no check.  On every cache it returns normally and leaves an empty value
    store, so that [GetAll] then returns an empty map; on the zero value
    [Cache{}] it therefore succeeds silently and makes [items] non-nil,
    where the [Clear] of lines 240-248 returns [ErrNotInitialized] and
    changes nothing. *)
Theorem Clear_has_no_check s μ :
  ((Clear s).1 = Ret () ∧ items_map (Clear s).2 = Some ∅
   ∧ ∃ l, (GetAll (Clear s).2).1 = Ret (Some l)
          ∧ deref l (mem (GetAll (Clear s).2).2) = ∅)
  ∧ (Clear (mkSys zero_Cache μ)).1 = Ret ()
  ∧ items_map (Clear (mkSys zero_Cache μ)).2 = Some ∅
  ∧ Clear_checked (mkSys zero_Cache μ)
    = (Ret (Some ErrNotInitialized), mkSys zero_Cache μ).
Proof.
  assert (Hempty : ∀ s', (Clear s').1 = Ret () ∧ items_map (Clear s').2 = Some ∅).
  { intros s'. unfold Clear, reset_items, items_map. simpl. split; [done|].
    unfold deref. simpl. by rewrite lookup_insert_eq. }
  split; [|split; [apply Hempty|split; [apply Hempty|reflexivity]]].
  split; [apply Hempty|split; [apply Hempty|]].
  destruct (GetAll_contents (Clear s).2 (alloc (mem s)).1) as (l & Hr & Hl).
  - reflexivity.
  - unfold Clear, reset_items, alloc. simpl. rewrite dom_insert_L.
    apply elem_of_union. left. by apply elem_of_singleton.
  - exists l. split; [done|]. rewrite Hl. apply alloc_deref_new.
Qed.

(** ** Update without a check *)


(** ** Hits stay hits *)

Local Abbreviation pres := (preserves (V:=V) (W:=W)).

Lemma cached_frame key v s s' :
  items (this s') = items (this s) →
  heap (mem s') = heap (mem s) →
  cached key v s → cached key v s'.
Proof.
  intros Hi Hh (its & Hits & Hk). exists its. split; [|done].
  unfold items_map, deref in *. by rewrite Hi, Hh.
Qed.

Lemma cached_allocated key v s :
  cached key v s → ∃ l, items (this s) = Some l ∧ l ∈ dom (heap (mem s)).
Proof.
  intros (its & Hits & Hk). unfold items_map, deref in Hits.
  destruct (items (this s)) as [l|]; [|done]. simpl in Hits.
  exists l. split; [done|]. apply elem_of_dom.
  destruct (heap (mem s) !! l); [done|]. simpl in Hits. by simplify_eq.
Qed.




Lemma preserves_read_item key v k : pres key v (read_item k).
Proof. intros s Hc. unfold read_item. by repeat case_match. Qed.

Lemma preserves_reread_item key v k : pres key v (reread_item k).
Proof. intros s Hc. done. Qed.

Lemma preserves_being_fetched key v k : pres key v (being_fetched k).
Proof. intros s Hc. done. Qed.

Lemma preserves_mark key v k : pres key v (mark k).
Proof.
  intros s Hc. unfold mark.
  repeat case_match; simpl; try done; by eapply cached_frame.
Qed.

Lemma preserves_unmark key v k : pres key v (unmark k).
Proof.
  intros s Hc. unfold unmark.
  repeat case_match; simpl; try done; by eapply cached_frame.
Qed.

Lemma preserves_wg_done key v k : pres key v (wg_done k).
Proof.
  intros s Hc. unfold wg_done.
  repeat case_match; simpl; try done; by eapply cached_frame.
Qed.

Lemma preserves_wg_wait key v k : pres key v (wg_wait k).
Proof. intros s Hc. unfold wg_wait. by repeat case_match. Qed.

Lemma preserves_call_fetch key v k : pres key v (call_fetch k).
Proof.
  intros s Hc. unfold call_fetch.
  repeat case_match; simpl; try done; by eapply cached_frame.
Qed.

Lemma preserves_store_item key v k v' :
  k ≠ key → pres key v (store_item k v').
Proof.
  intros Hne s (its & Hits & Hk). unfold store_item, items_map in *.
  destruct (items (this s)) as [l|] eqn:Hl; simpl in *; [|done].
  simplify_eq. exists (<[k := v']> (deref l (mem s))). split.
  - unfold items_map. simpl. rewrite Hl. simpl. by rewrite map_store_same.
  - by rewrite lookup_insert_ne.
Qed.




Lemma preserves_GetAll key v : pres key v GetAll.
Proof.
  intros s Hc. destruct (cached_allocated _ _ _ Hc) as (l & Hl & Hdom).
  destruct Hc as (its & Hits & Hk).
  unfold GetAll. simpl. rewrite Hl. simpl.
  exists its. split; [|done].
  unfold items_map in *. simpl. rewrite Hl in *. simpl in *. simplify_eq.
  f_equal. unfold deref. simpl.
  rewrite !lookup_insert_ne; [done| |];
    intros Heq; apply (is_fresh (dom (heap (mem s)))); by rewrite Heq.
Qed.



(** ** A successful fetch leaves the key cached *)





End facts.

(** * The two readings agree

    A goroutine that runs alone goes through the actions of the sequential
    method and ends with its result. *)

Section agreement.
Context {V W : Type}.
Implicit Types (s : Sys (V:=V) (W:=W)) (key : string).

Lemma run_alone_Returned n r s : run_alone n (Returned r) s = (Returned r, s).
Proof. by destruct n. Qed.

Lemma run_alone_Crashed n w s : run_alone n (Crashed w) s = (Crashed w, s).
Proof. by destruct n. Qed.

(** One step of a goroutine, read off the action it runs. *)
Lemma run_alone_act {A} n p (x : M A) (k : A → pc) s :
  tstep p s = act x k s →
  run_alone (S n) p s
  = match x s with
    | (Ret a, s1) => run_alone n (k a) s1
    | (Panic w, s1) => (Crashed w, s1)
    | (Deadlock, _) => (p, s)
    end.
Proof.
  intros Hstep. simpl. rewrite Hstep. unfold act.
  destruct (x s) as [[a|w|] s1]; try done. apply run_alone_Crashed.
Qed.

Lemma run_alone_act_deferred {A} n p key (x : M A) (k : A → pc) s :
  tstep p s = act_deferred key x k s →
  run_alone (S n) p s
  = match x s with
    | (Ret a, s1) => run_alone n (k a) s1
    | (Panic w, s1) => (Crashed w, (wg_done key s1).2)
    | (Deadlock, _) => (p, s)
    end.
Proof.
  intros Hstep. simpl. rewrite Hstep. unfold act_deferred.
  destruct (x s) as [[a|w|] s1]; try done. apply run_alone_Crashed.
Qed.

(** Only [wg_wait] can block, and it leaves the state as it is. *)
Lemma mark_returns key s : (mark key s).1 ≠ Deadlock.
Proof. unfold mark. by repeat case_match. Qed.

Lemma call_fetch_returns key s : (call_fetch key s).1 ≠ Deadlock.
Proof. unfold call_fetch. by repeat case_match. Qed.

Lemma store_item_returns key v s : (store_item key v s).1 ≠ Deadlock.
Proof. unfold store_item. by repeat case_match. Qed.

Lemma unmark_returns key s : (unmark key s).1 ≠ Deadlock.
Proof. unfold unmark. by repeat case_match. Qed.

Lemma wg_done_returns key s : (wg_done key s).1 ≠ Deadlock.
Proof. unfold wg_done. by repeat case_match. Qed.

Lemma read_item_returns key s : (read_item key s).1 ≠ Deadlock.
Proof. unfold read_item. by repeat case_match. Qed.

Lemma wg_wait_state key s : (wg_wait key s).2 = s.
Proof. unfold wg_wait. by repeat case_match. Qed.

Lemma lead_returns key s : (lead key s).1 ≠ Deadlock.
Proof.
  unfold lead, defer. unfold_M.
  pose proof (mark_returns key s) as Hm.
  destruct (mark key s) as [[[]|w|] s1]; try done.
  pose proof (call_fetch_returns key s1) as Hc.
  destruct (call_fetch key s1) as [[r|w|] s2]; try done.
  destruct r.2 as [e|].
  - cbn. pose proof (wg_done_returns key s2) as Hd.
    by destruct (wg_done key s2) as [[[]|w|] s3].
  - pose proof (store_item_returns key r.1 s2) as Hs.
    destruct (store_item key r.1 s2) as [[[]|w|] s3]; try done.
    pose proof (unmark_returns key s3) as Hu.
    destruct (unmark key s3) as [[[]|w|] s4]; try done.
    cbn. pose proof (wg_done_returns key s4) as Hd.
    by destruct (wg_done key s4) as [[[]|w|] s5].
Qed.

Lemma run_alone_lead o key s n :
  run_alone (6 + n) (LeadMark o key) s
  = (final_pc (LeadMark o key) (leader_result o) (lead key s).1, (lead key s).2).
Proof.
  unfold lead, defer. unfold_M. cbn [Nat.add].
  rewrite (run_alone_act _ _ (mark key) (λ _, LeadCall o key)) by done.
  pose proof (mark_returns key s) as Hm.
  destruct (mark key s) as [[[]|w|] s1]; try done. clear Hm.
  rewrite (run_alone_act_deferred _ _ key (call_fetch key)
             (λ r, LeadFetching o key r)) by done.
  pose proof (call_fetch_returns key s1) as Hc.
  destruct (call_fetch key s1) as [[r|w|] s2]; try done. clear Hc.
  change (run_alone (S (S (S (S n)))) (LeadFetching o key r) s2)
    with (run_alone (S (S (S n)))
            (match r.2 with
             | Some _ => LeadDone o key r
             | None => LeadStore o key r
             end) s2).
  destruct r.2 as [e|] eqn:He.
  - rewrite (run_alone_act _ _ (wg_done key)
               (λ _, Returned (leader_result o r))) by done.
    cbn. pose proof (wg_done_returns key s2) as Hd.
    by destruct (wg_done key s2) as [[[]|w|] s3].
  - rewrite (run_alone_act_deferred _ _ key (store_item key r.1)
               (λ _, LeadUnmark o key r)) by done.
    pose proof (store_item_returns key r.1 s2) as Hs.
    destruct (store_item key r.1 s2) as [[[]|w|] s3]; try done. clear Hs.
    rewrite (run_alone_act_deferred _ _ key (unmark key)
               (λ _, LeadDone o key r)) by done.
    pose proof (unmark_returns key s3) as Hu.
    destruct (unmark key s3) as [[[]|w|] s4]; try done. clear Hu.
    rewrite (run_alone_act _ _ (wg_done key)
               (λ _, Returned (leader_result o r))) by done.
    cbn. pose proof (wg_done_returns key s4) as Hd.
    destruct (wg_done key s4) as [[[]|w|] s5]; try done.
    cbn. by rewrite run_alone_Returned.
Qed.

Lemma run_alone_Get key s :
  run_alone 8 (GetStart key) s
  = (final_pc (GetWait key) (λ r, RGet r.1 r.2) (Get key s).1, (Get key s).2).
Proof.
  unfold Get. unfold_M.
  rewrite (run_alone_act _ _ (read_item key)
    (λ r, match r with
          | NotInit => Returned (RGet None (Some ErrNotInitialized))
          | Hit v => Returned (RGet v None)
          | Miss => GetCheck key
          end)) by done.
  pose proof (read_item_returns key s) as Hr.
  destruct (read_item key s) as [[[|v|]|w|] s1]; try done. clear Hr.
  rewrite (run_alone_act _ _ (being_fetched key)
    (λ b, if negb b then LeadMark InGet key else GetWait key)) by done.
  unfold being_fetched. rename s1 into s2.
  destruct (default false _); cbn [negb].
  - rewrite (run_alone_act _ _ (wg_wait key) (λ _, GetReread key)) by done.
    pose proof (wg_wait_state key s2) as Hw.
    destruct (wg_wait key s2) as [[[]|w|] s3]; simpl in Hw; subst; try done.
  - rewrite (run_alone_lead InGet key s2 0 : run_alone 6 _ _ = _).
    pose proof (lead_returns key s2) as Hl.
    by destruct (lead key s2) as [[r|w|] s3].
Qed.

Lemma run_alone_Update key s :
  run_alone 8 (UpdateStart key) s
  = (final_pc (UpdateWait key) RUpdate (Update key s).1, (Update key s).2).
Proof.
  unfold Update. unfold_M.
  rewrite (run_alone_act _ _ (being_fetched key)
    (λ b, if negb b then LeadMark InUpdate key else UpdateWait key)) by done.
  unfold being_fetched. rename s into s2.
  destruct (default false _); cbn [negb].
  - rewrite (run_alone_act _ _ (wg_wait key) (λ _, UpdateCall key)) by done.
    pose proof (wg_wait_state key s2) as Hw.
    destruct (wg_wait key s2) as [[[]|w|] s3]; simpl in Hw; subst; try done.
    rewrite (run_alone_act _ _ (call_fetch key)
               (λ r, UpdateFetching key r)) by done.
    pose proof (call_fetch_returns key s2) as Hc.
    destruct (call_fetch key s2) as [[r|w|] s3]; try done. clear Hc.
    change (run_alone 5 (UpdateFetching key r) s3)
      with (run_alone 4
              (match r.2 with
               | Some e => Returned (RUpdate (Some e))
               | None => UpdateStore key r
               end) s3).
    destruct r.2 as [e|]; [done|].
    rewrite (run_alone_act _ _ (store_item key r.1)
               (λ _, Returned (RUpdate None))) by done.
    pose proof (store_item_returns key r.1 s3) as Hs.
    by destruct (store_item key r.1 s3) as [[[]|w|] s4].
  - rewrite (run_alone_lead InUpdate key s2 1 : run_alone 7 _ _ = _).
    pose proof (lead_returns key s2) as Hl.
    by destruct (lead key s2) as [[r|w|] s3].
Qed.

End agreement.

(** * Hits under interleaving *)

Section interleaved_hits.
Context {V W : Type}.
Implicit Types (s : Sys (V:=V) (W:=W)) (key : string) (v : option V).
Implicit Types c : config (V:=V) (W:=W).

Lemma act_cached {A} key v (x : M A) (k : A → pc) s p' s' :
  preserves key v x → cached key v s →
  act x k s = Some (p', s') →
  cached key v s' ∧ ((∃ a, p' = k a) ∨ (∃ w, p' = Crashed w)).
Proof.
  intros Hx Hc Hact. specialize (Hx s Hc). unfold act in Hact.
  destruct (x s) as [[a|w|] s1]; simplify_eq; eauto.
Qed.

Lemma act_deferred_cached {A} key v k0 (x : M A) (k : A → pc) s p' s' :
  preserves key v x → cached key v s →
  act_deferred k0 x k s = Some (p', s') →
  cached key v s' ∧ ((∃ a, p' = k a) ∨ (∃ w, p' = Crashed w)).
Proof.
  intros Hx Hc Hact. specialize (Hx s Hc). unfold act_deferred in Hact.
  destruct (x s) as [[a|w|] s1]; simplify_eq; simpl in *; eauto.
  split; [|eauto]. by apply preserves_wg_done.
Qed.

(** A step of a harmless goroutine keeps the key cached and the goroutine
    harmless. *)
Lemma tstep_harmless key v p s p' s' :
  cached key v s → harmless key p = true →
  tstep p s = Some (p', s') →
  cached key v s' ∧ harmless key p' = true.
Proof.
  intros Hc Hp Hstep.
  destruct p; simpl in Hp, Hstep; try done;
    try apply bool_decide_eq_true in Hp.
  - (* GetStart *)
    destruct (decide (key0 = key)) as [->|Hne].
    + destruct Hc as (its & Hits & Hk). unfold act, read_item in Hstep.
      rewrite Hits, Hk in Hstep. simplify_eq. split; [by exists its|done].
    + eapply act_cached in Hstep as [Hc' [[[|v'|] ->]|[w ->]]];
        eauto using preserves_read_item.
      split; [done|]. simpl. by apply bool_decide_eq_true.
  - eapply act_cached in Hstep as [Hc' [[[|] ->]|[w ->]]];
      eauto using preserves_being_fetched;
      (split; [done|]); simpl; by apply bool_decide_eq_true.
  - eapply act_cached in Hstep as [Hc' [[a ->]|[w ->]]];
      eauto using preserves_wg_wait;
      (split; [done|]); simpl; by apply bool_decide_eq_true.
  - eapply act_cached in Hstep as [Hc' [[a ->]|[w ->]]];
      eauto using preserves_reread_item.
  - eapply act_cached in Hstep as [Hc' [[[|] ->]|[w ->]]];
      eauto using preserves_being_fetched;
      (split; [done|]); simpl; by apply bool_decide_eq_true.
  - eapply act_cached in Hstep as [Hc' [[a ->]|[w ->]]];
      eauto using preserves_wg_wait;
      (split; [done|]); simpl; by apply bool_decide_eq_true.
  - eapply act_cached in Hstep as [Hc' [[a ->]|[w ->]]];
      eauto using preserves_call_fetch;
      (split; [done|]); simpl; by apply bool_decide_eq_true.
  - simplify_eq. split; [done|]. destruct r.2; simpl; [done|].
    by apply bool_decide_eq_true.
  - eapply act_cached in Hstep as [Hc' [[a ->]|[w ->]]];
      eauto using preserves_store_item.
  - eapply act_cached in Hstep as [Hc' [[a ->]|[w ->]]];
      eauto using preserves_mark;
      (split; [done|]); simpl; by apply bool_decide_eq_true.
  - eapply act_deferred_cached in Hstep as [Hc' [[a ->]|[w ->]]];
      eauto using preserves_call_fetch;
      (split; [done|]); simpl; by apply bool_decide_eq_true.
  - simplify_eq. split; [done|].
    destruct r.2; simpl; by apply bool_decide_eq_true.
  - eapply act_deferred_cached in Hstep as [Hc' [[a ->]|[w ->]]];
      eauto using preserves_store_item;
      (split; [done|]); simpl; by apply bool_decide_eq_true.
  - eapply act_deferred_cached in Hstep as [Hc' [[a ->]|[w ->]]];
      eauto using preserves_unmark;
      (split; [done|]); simpl; by apply bool_decide_eq_true.
  - eapply act_cached in Hstep as [Hc' [[a ->]|[w ->]]];
      eauto using preserves_wg_done.
  - eapply act_cached in Hstep as [Hc' [[a ->]|[w ->]]];
      eauto using preserves_GetAll.
Qed.

Lemma step_harmless key v c c' :
  cached key v c.2 → Forall (λ p, harmless key p = true) c.1 →
  step c c' →
  cached key v c'.2 ∧ Forall (λ p, harmless key p = true) c'.1.
Proof.
  intros Hc Hall Hs. inversion Hs as [i c0 c1 Hstep]; subst c0 c1.
  unfold sched_step in Hstep.
  destruct (existsb crashed c.1); [done|].
  destruct (c.1 !! i) as [p|] eqn:Hp; [|done]. simpl in Hstep.
  destruct (tstep p c.2) as [[p' s']|] eqn:Ht; [|done].
  simpl in Hstep. simplify_eq. simpl.
  assert (Hp0 : harmless key p = true).
  { by apply (Forall_lookup_1 _ _ _ _ Hall Hp). }
  destruct (tstep_harmless key v p c.2 p' s' Hc Hp0 Ht) as [Hc' Hp'].
  split; [done|]. by apply Forall_insert.
Qed.

(** While only harmless goroutines run, at any interleaving, a goroutine
    that starts [Get key] returns the cached value in one step, on the fast
    path, and leaves the state as it is. *)
Lemma Get_hits_under_interleaving key v c c' :
  cached key v c.2 → Forall (λ p, harmless key p = true) c.1 →
  rtc step c c' →
  tstep (GetStart key) c'.2 = Some (Returned (RGet v None), c'.2).
Proof.
  intros Hc Hall Hsteps.
  assert (cached key v c'.2 ∧ Forall (λ p, harmless key p = true) c'.1)
    as [(its & Hits & Hk) _].
  { induction Hsteps as [|c0 c1 c2 Hstep _ IH]; [done|].
    apply IH; by eapply step_harmless. }
  simpl. unfold act, read_item. by rewrite Hits, Hk.
Qed.

End interleaved_hits.

(** * A failed fetch *)

Section failed_fetch.
Context {V W : Type}.
Implicit Types (s : Sys (V:=V) (W:=W)) (key : string).

(** The state a leader [Get] leaves behind when the fetcher fails: the
    fetch is logged, the wait-group counter is back at zero, and the
    in-flight flag is still [true]. *)
Lemma Get_failed_fetch key s its fl g (f : fetcher) v e w :
  items_map s = Some its → its !! key = None →
  isBeingFetchedMap (this s) = Some fl → default false (fl !! key) = false →
  isBeingFetchedWG (this s) = Some g → default 0 (g !! key) = 0 →
  fetch (this s) = Some f → f key (world (mem s)) = ((v, Some e), w) →
  Get key s
  = (Ret (v, Some e),
     mkSys (set_wgs (Some (<[key := 0]> (<[key := 1]> g)))
                    (set_wgs (Some (<[key := 1]> g))
                             (set_flags (Some (<[key := true]> fl)) (this s))))
           (mkMem (heap (mem s)) w (calls (mem s) ++ [key]))).
Proof.
  intros Hits Hmiss Hfl Hflag Hg Hcnt Hf Hres.
  destruct s as [[il fo fm wgs pw] [h w0 cs]]. cbn in *. simplify_eq.
  destruct il as [l|]; cbn in *; simplify_eq.
  unfold Get, read_item, being_fetched, lead, mark, call_fetch, wg_done.
  unfold_M. unfold items_map.
  repeat first [rewrite Hmiss | rewrite Hflag | rewrite Hcnt | rewrite Hres
               | rewrite lookup_insert_eq | progress cbn].
  done.
Qed.

(** On success the same leader does clear the flag. *)
Lemma Get_successful_fetch_clears_flag key s its fl g (f : fetcher) v w :
  items_map s = Some its → its !! key = None →
  isBeingFetchedMap (this s) = Some fl → default false (fl !! key) = false →
  isBeingFetchedWG (this s) = Some g → default 0 (g !! key) = 0 →
  fetch (this s) = Some f → f key (world (mem s)) = ((v, None), w) →
  (Get key s).1 = Ret (v, None)
  ∧ (being_fetched key (Get key s).2).1 = Ret false
  ∧ (wg_wait key (Get key s).2).1 = Ret ()
  ∧ cached key v (Get key s).2.
Proof.
  intros Hits Hmiss Hfl Hflag Hg Hcnt Hf Hres.
  destruct s as [[il fo fm wgs pw] [h w0 cs]]. cbn in *. simplify_eq.
  destruct il as [l|]; cbn in *; simplify_eq.
  unfold cached, wg_wait.
  unfold Get, read_item, being_fetched, lead, mark, call_fetch, store_item,
    unmark, wg_done.
  unfold_M. unfold items_map.
  repeat first [rewrite Hmiss | rewrite Hflag | rewrite Hcnt | rewrite Hres
               | rewrite lookup_insert_eq | progress cbn].
  repeat split; try done.
  eexists. split; [done|]. rewrite map_store_same. apply lookup_insert_eq.
Qed.

(** C1 does not hold on a failed fetch: when the fetcher fails in the
    leader case of [Get], the early [return] skips
    [m.isBeingFetchedMap[key] = false].  The deferred [wg.Done()] runs, so a
    waiter is released, but the in-flight flag of the key stays [true]. *)
Theorem Get_failed_fetch_keeps_flag key s its fl g (f : fetcher) v e w :
  items_map s = Some its → its !! key = None →
  isBeingFetchedMap (this s) = Some fl → default false (fl !! key) = false →
  isBeingFetchedWG (this s) = Some g → default 0 (g !! key) = 0 →
  fetch (this s) = Some f → f key (world (mem s)) = ((v, Some e), w) →
  (Get key s).1 = Ret (v, Some e)
  ∧ (being_fetched key (Get key s).2).1 = Ret true
  ∧ (wg_wait key (Get key s).2).1 = Ret ().
Proof.
  intros Hits Hmiss Hfl Hflag Hg Hcnt Hf Hres.
  rewrite (Get_failed_fetch key s its fl g f v e w) by done.
  split; [done|]. unfold being_fetched, wg_wait. cbn.
  by rewrite !lookup_insert_eq.
Qed.

(** C2 does not hold in its last part: when the fetcher fails in the
    leader case of [Get], the error is returned as it is and the key stays
    out of the value store, but the next [Get] of the key finds the in-flight
    flag set, takes the follower path and returns a nil value with a nil
    error, in an unchanged state: the fetcher is not invoked again. *)
Theorem Get_failed_fetch_is_not_retried key s its fl g (f : fetcher) v e w :
  items_map s = Some its → its !! key = None →
  isBeingFetchedMap (this s) = Some fl → default false (fl !! key) = false →
  isBeingFetchedWG (this s) = Some g → default 0 (g !! key) = 0 →
  fetch (this s) = Some f → f key (world (mem s)) = ((v, Some e), w) →
  (Get key s).1 = Ret (v, Some e)
  ∧ items_map (Get key s).2 = Some its
  ∧ calls (mem (Get key s).2) = calls (mem s) ++ [key]
  ∧ Get key (Get key s).2 = (Ret (None, None), (Get key s).2).
Proof.
  intros Hits Hmiss Hfl Hflag Hg Hcnt Hf Hres.
  rewrite (Get_failed_fetch key s its fl g f v e w) by done.
  clear Hf Hres.
  destruct s as [[il fo fm wgs pw] [h w0 cs]]. cbn in *. simplify_eq.
  destruct il as [l|]; cbn in *; simplify_eq.
  split; [done|]. split; [done|]. split; [done|].
  unfold Get, read_item, being_fetched, wg_wait, reread_item.
  unfold_M. unfold items_map, deref in *. cbn in *.
  repeat first [rewrite Hmiss | rewrite lookup_insert_eq | progress cbn].
  done.
Qed.

End failed_fetch.

(** * Schedules are runs of the step relation *)

Section schedules.
Context {V W : Type}.
Implicit Types c : config (V:=V) (W:=W).

Lemma run_sched_steps sched c c' :
  run_sched sched c = Some c' → rtc step c c'.
Proof.
  revert c. induction sched as [|i sched IH]; intros c Hrun; simpl in Hrun.
  - by simplify_eq.
  - destruct (sched_step i c) as [c1|] eqn:Hstep; [|done].
    eapply rtc_l; [by econstructor|]. by apply IH.
Qed.

End schedules.

(** * The properties on the concrete instance *)

Lemma Get_not_initialized_witness :
  items (this zero_sys) = None
  ∧ Get "k" zero_sys = (Ret (None, Some ErrNotInitialized), zero_sys)
  ∧ calls (mem (Get "k" zero_sys).2) = [].
Proof.
  split; [reflexivity|].
  apply (Get_not_initialized zero_Cache mem0 "k"). reflexivity.
Defined.


Lemma GetAll_snapshot_witness :
  this (GetAll fresh_sys).2 = this fresh_sys
  ∧ ∃ l', (GetAll fresh_sys).1 = Ret (Some l')
          ∧ (l' ∉ dom (heap (mem fresh_sys))) ∧ (l' ≠ 0)
          ∧ deref l' (mem (GetAll fresh_sys).2) = deref 0 (mem fresh_sys)
          ∧ deref 0 (mem (GetAll fresh_sys).2) = deref 0 (mem fresh_sys)
          ∧ (∀ k v, items_map (mkSys (this fresh_sys)
                                 (map_store l' k v (mem (GetAll fresh_sys).2)))
                    = Some (deref 0 (mem fresh_sys)))
          ∧ (∀ k v, deref l' (mem (store_item k v (GetAll fresh_sys).2).2)
                    = deref 0 (mem fresh_sys))
          ∧ deref l' (mem (Clear (GetAll fresh_sys).2).2)
            = deref 0 (mem fresh_sys).
Proof.
  apply (GetAll_snapshot (this fresh_sys) (mem fresh_sys)).
  intros l Hl. vm_compute in Hl. injection Hl as <-.
  apply elem_of_dom. exists ∅. vm_compute. reflexivity.
Defined.



Lemma Get_failed_fetch_keeps_flag_witness :
  (Get "bad" fresh_sys).1 = Ret (None, Some (ErrUser 1))
  ∧ (being_fetched "bad" (Get "bad" fresh_sys).2).1 = Ret true
  ∧ (wg_wait "bad" (Get "bad" fresh_sys).2).1 = Ret ().
Proof.
  apply (Get_failed_fetch_keeps_flag "bad" fresh_sys ∅ ∅ ∅ demo_fetch
           None (ErrUser 1) 1); reflexivity.
Defined.

Lemma Get_failed_fetch_is_not_retried_witness :
  (Get "bad" fresh_sys).1 = Ret (None, Some (ErrUser 1))
  ∧ items_map (Get "bad" fresh_sys).2 = Some ∅
  ∧ calls (mem (Get "bad" fresh_sys).2) = calls (mem fresh_sys) ++ ["bad"]
  ∧ Get "bad" (Get "bad" fresh_sys).2
    = (Ret (None, None), (Get "bad" fresh_sys).2).
Proof.
  apply (Get_failed_fetch_is_not_retried "bad" fresh_sys ∅ ∅ ∅ demo_fetch
           None (ErrUser 1) 1); reflexivity.
Defined.


(** ** The cases of the test file *)

Example TestNew_without_prewarm :
  ∃ l, (GetAll fresh_sys).1 = Ret (Some l)
       ∧ deref l (mem (GetAll fresh_sys).2) = ∅.
Proof. eexists. split; reflexivity. Qed.

Example TestNew_prewarmed :
  ∃ l, (GetAll prewarmed_sys).1 = Ret (Some l)
       ∧ deref l (mem (GetAll prewarmed_sys).2) = {[ "1" := Some 7 ]}.
Proof. eexists. split; reflexivity. Qed.

Example TestNew_prewarm_fails :
  New (Some demo_fetch) (Some failing_prewarm) mem0
  = ((None, Some (ErrUser 2)), mem0).
Proof. reflexivity. Qed.

Example TestGet :
  (Get "2" fresh_sys).1 = Ret (Some 0, None)
  ∧ (Get "1" prewarmed_sys).1 = Ret (Some 7, None).
Proof. split; reflexivity. Qed.

Example TestGetAll_after_two_Gets :
  ∃ l, (GetAll (execs [OpGet "2"; OpGet "3"] fresh_sys).2).1 = Ret (Some l)
       ∧ deref l (mem (GetAll (execs [OpGet "2"; OpGet "3"] fresh_sys).2).2)
         = {[ "2" := Some 0; "3" := Some 1 ]}.
Proof. eexists. split; [reflexivity|]. by vm_compute. Qed.

Example TestGetAll_not_initialized : (GetAll zero_sys).1 = Ret None.
Proof. reflexivity. Qed.

Example TestClear_prewarmed :
  ∃ l, (GetAll (Clear prewarmed_sys).2).1 = Ret (Some l)
       ∧ deref l (mem (GetAll (Clear prewarmed_sys).2).2) = ∅.
Proof. eexists. split; reflexivity. Qed.

(** C3 does not hold: the in-flight flag is read under the
    read lock and set later under the write lock.  Two goroutines that call
    [Get("k")] on a fresh cache can both read [false] before either sets the
    flag; both then become leaders, the fetcher is invoked twice, the two
    fetches are in progress together, and the two calls return different
    values with a nil error. *)
Theorem concurrent_Gets_fetch_twice :
  ∃ c c' : config (V:=nat) (W:=nat),
    rtc step two_Gets c
    ∧ fetches_in_progress "k" c = 2
    ∧ calls (mem c.2) = ["k"; "k"]
    ∧ rtc step c c'
    ∧ c'.1 = [Returned (RGet (Some 0) None); Returned (RGet (Some 1) None)].
Proof.
  set (mid := default two_Gets (run_sched [0; 1; 0; 1; 0; 1; 0; 1] two_Gets)).
  set (fin := default two_Gets (run_sched [0; 0; 0; 0; 1; 1; 1; 1] mid)).
  exists mid, fin. repeat split.
  - apply (run_sched_steps [0; 1; 0; 1; 0; 1; 0; 1]). vm_compute. reflexivity.
  - apply (run_sched_steps [0; 0; 0; 0; 1; 1; 1; 1]). vm_compute. reflexivity.
Qed.

(** C8 does not hold in its last part: an [Update] that finds a fetch in
    flight waits for it and then calls the fetcher without marking the key.
    With a [Get("k")] in flight, two goroutines in [Update("k")] are both
    blocked until that fetch is over, and then run their two fetches of
    ["k"] at the same time. *)
Theorem waiting_Updates_fetch_together :
  ∃ c c' : config (V:=nat) (W:=nat),
    rtc step Get_and_two_Updates c
    ∧ c.1 = [LeadFetching InGet "k" (Some 0, None);
             UpdateWait "k"; UpdateWait "k"]
    ∧ sched_step 1 c = None
    ∧ sched_step 2 c = None
    ∧ rtc step c c'
    ∧ c'.1 = [Returned (RGet (Some 0) None);
              UpdateFetching "k" (Some 1, None);
              UpdateFetching "k" (Some 2, None)]
    ∧ fetches_in_progress "k" c' = 2.
Proof.
  set (mid := default Get_and_two_Updates
                (run_sched [0; 0; 0; 0; 1; 2] Get_and_two_Updates)).
  set (fin := default Get_and_two_Updates
                (run_sched [0; 0; 0; 0; 1; 2; 1; 2] mid)).
  exists mid, fin. repeat split.
  - apply (run_sched_steps [0; 0; 0; 0; 1; 2]). vm_compute. reflexivity.
  - apply (run_sched_steps [0; 0; 0; 0; 1; 2; 1; 2]). vm_compute. reflexivity.
Qed.

(** * Further properties of the methods *)

Section construction.
Context {V W : Type}.
Implicit Types (c : Cache (V:=V) (W:=W)) (μ : Mem (V:=V) (W:=W)).
Implicit Types (s : Sys (V:=V) (W:=W)) (key : string).

(** [New] without prewarm never fails and never calls the fetcher; the
    cache it returns has an empty, non-nil value store, so [GetAll] on it
    returns an empty map that is not nil. *)
Theorem New_without_prewarm_is_empty (f : option fetcher) μ :
  ∃ c μ' l,
    New f None μ = ((Some c, None), μ')
    ∧ fetch c = f
    ∧ items_map (mkSys c μ') = Some ∅
    ∧ calls μ' = calls μ
    ∧ (GetAll (mkSys c μ')).1 = Ret (Some l)
    ∧ deref l (mem (GetAll (mkSys c μ')).2) = ∅.
Proof.
  destruct (GetAll_contents
              (mkSys (mkCache (Some (alloc μ).1) f (Some ∅) (Some ∅) None)
                     (alloc μ).2) (alloc μ).1) as (l & Hr & Hl).
  - reflexivity.
  - unfold alloc. simpl. rewrite dom_insert_L.
    apply elem_of_union. left. by apply elem_of_singleton.
  - eexists _, _, l. split; [reflexivity|]. split; [reflexivity|].
    split; [|split; [reflexivity|split; [exact Hr|]]].
    + unfold items_map. simpl. f_equal. apply alloc_deref_new.
    + etrans; [exact Hl|apply alloc_deref_new].
Qed.

(** When the prewarm function fails, [New] returns no cache and the error
    of the prewarm function as it is, whatever map came with it. *)
Theorem New_prewarm_error (f : option fetcher) (p : prewarm) μ its e μ1 :
  p μ = ((its, Some e), μ1) →
  New f (Some p) μ = ((None, Some e), μ1).
Proof. intros Hp. unfold New. by rewrite Hp. Qed.

(** [New] keeps the map of the prewarm function itself, not a copy: what is
    written into that map after [New] is what [Get] returns, without a
    fetch. *)
Theorem New_keeps_prewarm_map (f : option fetcher) (p : prewarm) μ l μ1 :
  p μ = ((Some l, None), μ1) →
  ∃ c, New f (Some p) μ = ((Some c, None), μ1)
       ∧ items c = Some l
       ∧ ∀ k v, Get k (mkSys c (map_store l k v μ1))
                = (Ret (v, None), mkSys c (map_store l k v μ1)).
Proof.
  intros Hp. eexists. split; [unfold New; by rewrite Hp|].
  split; [reflexivity|]. intros k v. apply Get_hit.
  exists (<[k := v]> (deref l μ1)). split; [|apply lookup_insert_eq].
  unfold items_map. simpl. by rewrite map_store_same.
Qed.

End construction.

Section refresh.
Context {V W : Type}.
Implicit Types (s : Sys (V:=V) (W:=W)) (key : string) (v : option V).

Ltac eval_method :=
  unfold Get, Update, Clear, lead, read_item, being_fetched, wg_wait,
    reread_item, mark, call_fetch, store_item, unmark, wg_done, reset_items,
    alloc;
  unfold_M; unfold items_map, deref in *; cbn in *.

Ltac stored :=
  eexists; (split; [done|]); unfold map_store, deref;
  repeat first [rewrite lookup_insert_eq | progress cbn]; done.

(** A [Get] calls the fetcher at most once, and only for its own key,
    however it ends. *)
Theorem Get_calls_fetcher_at_most_once key s :
  calls (mem (Get key s).2) = calls (mem s)
  ∨ calls (mem (Get key s).2) = calls (mem s) ++ [key].
Proof.
  destruct s as [[il fo fm wgs pw] [h w0 cs]]. eval_method.
  repeat (case_match; simplify_eq; cbn in * ); auto.
Qed.

(** An [Update] that returns has called the fetcher exactly once, for its
    own key, and returns the error of that call. *)
Theorem Update_returns_after_one_fetch key s e s' :
  Update key s = (Ret e, s') →
  calls (mem s') = calls (mem s) ++ [key]
  ∧ ∃ f, fetch (this s) = Some f ∧ (f key (world (mem s))).1.2 = e.
Proof.
  destruct s as [[il fo fm wgs pw] [h w0 cs]]. eval_method. intros H.
  repeat (case_match; simplify_eq; cbn in * );
    (split; [done|]); eexists; (split; [done|]);
    match goal with Hf : _ key _ = _ |- _ => by rewrite Hf end.
Qed.

Lemma Update_success_cached key s l (f : fetcher) v w :
  items (this s) = Some l → idle key s →
  fetch (this s) = Some f → f key (world (mem s)) = ((v, None), w) →
  (Update key s).1 = Ret None
  ∧ cached key v (Update key s).2
  ∧ calls (mem (Update key s).2) = calls (mem s) ++ [key].
Proof.
  intros Hl (fl & g & Hfl & Hg & Hcnt & Hwg) Hf Hres.
  destruct s as [[il fo fm wgs pw] [h w0 cs]]. cbn in *. simplify_eq.
  unfold cached. eval_method.
  destruct (default false (fl !! key)) eqn:Hflag; cbn.
  - destruct Hwg as [n Hgk]; [done|]. rewrite Hgk in Hcnt. cbn in Hcnt.
    subst n.
    repeat first [rewrite Hgk | rewrite Hres | rewrite lookup_insert_eq
                 | progress cbn].
    split; [done|]. split; [|done]. stored.
  - repeat first [rewrite Hcnt | rewrite Hres | rewrite lookup_insert_eq
                 | progress cbn].
    split; [done|]. split; [|done]. stored.
Qed.

(** [Update] on an initialised cache with no fetch of the key pending,
    whether or not the key is cached or marked: when the fetch succeeds the
    fetched value replaces what was stored, and the next [Get] returns it
    without a fetch. *)
Theorem Update_refreshes key s l (f : fetcher) v w :
  items (this s) = Some l → idle key s →
  fetch (this s) = Some f → f key (world (mem s)) = ((v, None), w) →
  (Update key s).1 = Ret None
  ∧ calls (mem (Update key s).2) = calls (mem s) ++ [key]
  ∧ Get key (Update key s).2 = (Ret (v, None), (Update key s).2).
Proof.
  intros Hl Hidle Hf Hres.
  destruct (Update_success_cached key s l f v w) as (Hr & Hc & Hcalls);
    try done.
  split; [done|]. split; [done|]. by apply Get_hit.
Qed.

(** When the fetch of an [Update] fails, the error is returned and the
    value store is left as it was: a key that was cached keeps its old
    value. *)
Theorem Update_failure_keeps_store key s (f : fetcher) v e w :
  idle key s →
  fetch (this s) = Some f → f key (world (mem s)) = ((v, Some e), w) →
  (Update key s).1 = Ret (Some e)
  ∧ items_map (Update key s).2 = items_map s
  ∧ ∀ v0, cached key v0 s →
          Get key (Update key s).2 = (Ret (v0, None), (Update key s).2).
Proof.
  intros (fl & g & Hfl & Hg & Hcnt & Hwg) Hf Hres.
  assert (Hgoal : (Update key s).1 = Ret (Some e)
                  ∧ items_map (Update key s).2 = items_map s).
  { destruct s as [[il fo fm wgs pw] [h w0 cs]]. cbn in *. simplify_eq.
    eval_method.
    destruct (default false (fl !! key)) eqn:Hflag; cbn.
    - destruct Hwg as [n Hgk]; [done|]. rewrite Hgk in Hcnt. cbn in Hcnt.
      subst n.
      repeat first [rewrite Hgk | rewrite Hres | rewrite lookup_insert_eq
                   | progress cbn].
      done.
    - repeat first [rewrite Hcnt | rewrite Hres | rewrite lookup_insert_eq
                   | progress cbn].
      done. }
  destruct Hgoal as [Hr Hits]. split; [done|]. split; [done|].
  intros v0 (its & Hi & Hk). apply Get_hit. exists its.
  by rewrite Hits.
Qed.

(** The way out of a failed [Get]: the key is left marked, so a later [Get]
    does not fetch, but an [Update] does; when its fetch succeeds the value
    is stored and [Get] returns it from then on. *)
Theorem Update_recovers_failed_Get key s its fl g (f : fetcher)
    v e w v' w' :
  items_map s = Some its → its !! key = None →
  isBeingFetchedMap (this s) = Some fl → default false (fl !! key) = false →
  isBeingFetchedWG (this s) = Some g → default 0 (g !! key) = 0 →
  fetch (this s) = Some f →
  f key (world (mem s)) = ((v, Some e), w) → f key w = ((v', None), w') →
  (Get key s).1 = Ret (v, Some e)
  ∧ (Update key (Get key s).2).1 = Ret None
  ∧ Get key (Update key (Get key s).2).2
    = (Ret (v', None), (Update key (Get key s).2).2).
Proof.
  intros Hits Hmiss Hfl Hflag Hg Hcnt Hf Hres Hres'.
  rewrite (Get_failed_fetch key s its fl g f v e w) by done.
  split; [done|].
  assert (∃ l, items (this s) = Some l) as [l Hl].
  { unfold items_map in Hits. destruct (items (this s)); [eauto|done]. }
  match goal with |- (Update key ?s1).1 = _ ∧ _ =>
    destruct (Update_success_cached key s1 l f v' w') as (Hr & Hc & _);
      try done
  end.
  - do 2 eexists. split; [reflexivity|]. split; [reflexivity|].
    split; [by rewrite lookup_insert_eq|]. intros _.
    rewrite lookup_insert_eq. eauto.
  - split; [done|]. by apply Get_hit.
Qed.

(** After [Clear] a [Get] of a key with no fetch pending is a miss, whether
    or not the key was cached before: the fetcher is called again and its
    value returned. *)
Theorem Clear_then_Get_refetches key s fl g (f : fetcher) v w :
  isBeingFetchedMap (this s) = Some fl → default false (fl !! key) = false →
  isBeingFetchedWG (this s) = Some g → default 0 (g !! key) = 0 →
  fetch (this s) = Some f → f key (world (mem s)) = ((v, None), w) →
  (Get key (Clear s).2).1 = Ret (v, None)
  ∧ calls (mem (Get key (Clear s).2).2) = calls (mem s) ++ [key]
  ∧ cached key v (Get key (Clear s).2).2.
Proof.
  intros Hfl Hflag Hg Hcnt Hf Hres.
  destruct s as [[il fo fm wgs pw] [h w0 cs]]. cbn in *. simplify_eq.
  unfold cached. eval_method.
  repeat first [rewrite Hflag | rewrite Hcnt | rewrite Hres
               | rewrite lookup_insert_eq | rewrite lookup_empty
               | progress cbn].
  split; [done|]. split; [done|]. stored.
Qed.

(** [Clear] does not touch the in-flight tracker: a key left marked by a
    failed [Get] stays marked, and [Get] still returns a nil value and a nil
    error without a fetch. *)
Theorem Clear_keeps_stuck_flag key s its fl g (f : fetcher) v e w :
  items_map s = Some its → its !! key = None →
  isBeingFetchedMap (this s) = Some fl → default false (fl !! key) = false →
  isBeingFetchedWG (this s) = Some g → default 0 (g !! key) = 0 →
  fetch (this s) = Some f → f key (world (mem s)) = ((v, Some e), w) →
  Get key (Clear (Get key s).2).2
  = (Ret (None, None), (Clear (Get key s).2).2).
Proof.
  intros Hits Hmiss Hfl Hflag Hg Hcnt Hf Hres.
  rewrite (Get_failed_fetch key s its fl g f v e w) by done.
  destruct s as [[il fo fm wgs pw] [h w0 cs]]. cbn in *.
  eval_method.
  repeat first [rewrite lookup_insert_eq | rewrite lookup_empty
               | progress cbn].
  done.
Qed.

(** [Clear] does not make a zero [Cache{}] usable: the value store is then
    non-nil, so [Get] no longer reports [ErrNotInitialized], and it panics on
    the nil in-flight map before any fetch. *)
Theorem Clear_zero_Cache_then_Get_panics key (μ : Mem (V:=V) (W:=W)) :
  (Get key (Clear (mkSys zero_Cache μ)).2).1 = Panic nil_map_write
  ∧ calls (mem (Get key (Clear (mkSys zero_Cache μ)).2).2) = calls μ.
Proof.
  eval_method. rewrite lookup_insert_eq. cbn. by rewrite lookup_empty.
Qed.

End refresh.

Section round_trip.
Context {V W : Type}.
Implicit Types (s : Sys (V:=V) (W:=W)) (key : string) (v : option V).

(** A miss followed by a hit: on an initialised cache where the key is
    absent and not marked, a [Get] whose fetch succeeds calls the fetcher
    once, returns its value, clears the in-flight flag, and the next [Get]
    returns the same value from the store without a fetch. *)
Theorem Get_miss_then_hit key s its fl g (f : fetcher) v w :
  items_map s = Some its → its !! key = None →
  isBeingFetchedMap (this s) = Some fl → default false (fl !! key) = false →
  isBeingFetchedWG (this s) = Some g → default 0 (g !! key) = 0 →
  fetch (this s) = Some f → f key (world (mem s)) = ((v, None), w) →
  (Get key s).1 = Ret (v, None)
  ∧ calls (mem (Get key s).2) = calls (mem s) ++ [key]
  ∧ (being_fetched key (Get key s).2).1 = Ret false
  ∧ Get key (Get key s).2 = (Ret (v, None), (Get key s).2).
Proof.
  intros Hits Hmiss Hfl Hflag Hg Hcnt Hf Hres.
  destruct (Get_successful_fetch_clears_flag key s its fl g f v w)
    as (Hr & Hb & _ & Hc); try done.
  split; [done|]. split; [|split; [done|by apply Get_hit]].
  destruct s as [[il fo fm wgs pw] [h w0 cs]]. cbn in *. simplify_eq.
  destruct il as [l|]; cbn in *; simplify_eq.
  unfold Get, read_item, being_fetched, lead, mark, call_fetch, store_item,
    unmark, wg_done.
  unfold_M. unfold items_map.
  repeat first [rewrite Hmiss | rewrite Hflag | rewrite Hcnt | rewrite Hres
               | rewrite lookup_insert_eq | progress cbn].
  done.
Qed.

End round_trip.

(** * Wait groups stay balanced *)

Section balance.
Context {V W : Type}.
Implicit Types (s : Sys (V:=V) (W:=W)) (key k : string).

Lemma lead_balanced key s (r : option V * option error) s' k :
  lead key s = (Ret r, s') → wg_count k s' = wg_count k s.
Proof.
  destruct s as [[il fo fm wgs pw] [h w0 cs]].
  unfold lead, mark, call_fetch, store_item, unmark, wg_done, wg_count.
  unfold_M. cbn. intros H.
  repeat (case_match; simplify_eq; cbn in * );
    match goal with
    | Hn : <[key := S _]> _ !! key = Some (S _) |- _ =>
        rewrite lookup_insert_eq in Hn; simplify_eq
    end;
    (destruct (decide (k = key)) as [->|Hne];
     [by rewrite lookup_insert_eq|by rewrite !lookup_insert_ne]).
Qed.

Lemma Get_balanced key s (r : option V * option error) s' k :
  Get key s = (Ret r, s') → wg_count k s' = wg_count k s.
Proof.
  unfold Get, read_item, being_fetched, wg_wait, reread_item. unfold_M.
  intros H.
  repeat (case_match; simplify_eq; cbn in * ); try done.
  by eapply lead_balanced.
Qed.

Lemma Update_balanced key s (e : option error) s' k :
  Update key s = (Ret e, s') → wg_count k s' = wg_count k s.
Proof.
  unfold Update, being_fetched, wg_wait, call_fetch, store_item. unfold_M.
  intros H.
  repeat (case_match; simplify_eq; cbn in * ); try done.
  all: by eapply lead_balanced.
Qed.

Lemma exec_balanced (o : op) s (r : retval (V:=V)) s' k :
  exec o s = (Ret r, s') → wg_count k s' = wg_count k s.
Proof.
  destruct o as [key|key| |]; simpl; unfold_M; intros H.
  - destruct (Get key s) as [[a|w|] s1] eqn:HG; simplify_eq.
    by eapply Get_balanced.
  - destruct (Update key s) as [[a|w|] s1] eqn:HU; simplify_eq.
    by eapply Update_balanced.
  - unfold Clear, reset_items, alloc in H. cbn in H. by simplify_eq.
  - unfold GetAll, alloc in H. cbn in H.
    destruct (items (this s)); cbn in H; by simplify_eq.
Qed.

Lemma exec_not_blocked (o : op) s :
  quiescent s → (exec o s).1 ≠ Deadlock.
Proof.
  intros Hq. destruct o as [key|key| |]; simpl; unfold_M.
  - pose proof (Hq key) as Hk. unfold wg_count in Hk.
    pose proof (lead_returns key s) as Hl.
    unfold Get, read_item, being_fetched, wg_wait, reread_item. unfold_M.
    repeat (case_match; simplify_eq; cbn in * ); try done.
    all: try match goal with
             | H : lead _ _ = _ |- _ => by rewrite H in Hl
             end.
    all: match goal with
         | H : _ = Some (S _) |- _ => by rewrite H in Hk
         end.
  - pose proof (Hq key) as Hk. unfold wg_count in Hk.
    pose proof (lead_returns key s) as Hl.
    unfold Update, being_fetched, wg_wait, call_fetch, store_item. unfold_M.
    repeat (case_match; simplify_eq; cbn in * ); try done.
    all: try match goal with
             | H : lead _ _ = _ |- _ => by rewrite H in Hl
             end.
    all: match goal with
         | H : _ = Some (S _) |- _ => by rewrite H in Hk
         end.
  - done.
  - unfold GetAll. simpl. by destruct (items (this s)).
Qed.

(** Every call that returns leaves each wait-group counter as it found it:
    the [Add(1)] of a leader is always matched by its deferred [Done()]. *)
Theorem calls_leave_wait_groups_balanced (ops : list op) s
    (rs : list (retval (V:=V))) s' k :
  execs ops s = (Ret rs, s') → wg_count k s' = wg_count k s.
Proof.
  revert s rs s'. induction ops as [|o ops IH]; intros s rs s' H.
  { simpl in H. unfold_M. by simplify_eq. }
  simpl in H. unfold_M.
  destruct (exec o s) as [[r|w|] s1] eqn:Ho; simplify_eq.
  destruct (execs ops s1) as [[rs1|w|] s2] eqn:Hrest; simplify_eq.
  rewrite (IH _ _ _ Hrest). by eapply exec_balanced.
Qed.

(** On a cache built by [New], calls made one after the other never block:
    no [Get] or [Update] waits on a wait group that nobody will release. *)
Theorem sequential_calls_never_block (f : option fetcher)
    (pw : option prewarm) (μ : Mem (V:=V) (W:=W)) c μ' (ops : list op) :
  New f pw μ = ((Some c, None), μ') →
  (execs ops (mkSys c μ')).1 ≠ Deadlock.
Proof.
  intros HNew.
  assert (Hq : quiescent (mkSys c μ')).
  { intros k. unfold wg_count, New in *.
    destruct pw as [p|].
    - destruct (p μ) as [[its [e|]] μ1]; simplify_eq. cbn.
      by rewrite ?lookup_empty.
    - cbn in HNew. simplify_eq. cbn. by rewrite ?lookup_empty. }
  clear HNew. generalize dependent (mkSys c μ'). clear c μ'.
  induction ops as [|o ops IH]; intros s Hq; [done|].
  simpl. unfold_M. pose proof (exec_not_blocked o s Hq) as Hnb.
  destruct (exec o s) as [[r|w|] s1] eqn:Ho; simpl in *; try done.
  assert (Hq1 : quiescent s1).
  { intros k. rewrite (exec_balanced o s r s1 k Ho). apply Hq. }
  specialize (IH s1 Hq1).
  by destruct (execs ops s1) as [[rs|w|] s2].
Qed.

End balance.

(** * Wait groups under interleaving *)

Section progress.
Context {V W : Type}.
Implicit Types (s : Sys (V:=V) (W:=W)) (key k : string).
Implicit Types (c : config (V:=V) (W:=W)) (p : pc (V:=V)).

Lemma tstep_counts p s p' s' k :
  tstep p s = Some (p', s') →
  (leading k p = true → 1 ≤ wg_count k s) →
  wg_count k s' + one_if (leading k p) = wg_count k s + one_if (leading k p').
Proof.
  intros Hstep Hpos.
  destruct s as [[il fo fm [g|] pw] [h w0 cs]].
  all: destruct p; simpl in Hstep, Hpos;
    unfold act, act_deferred, read_item, being_fetched, wg_wait, reread_item,
      mark, call_fetch, store_item, unmark, wg_done, Clear, reset_items,
      GetAll, alloc, wg_count in *;
    cbn in *;
    repeat (case_match; simplify_eq; cbn in * ); try done.
  all: try (destruct (decide (key = k)) as [->|Hne];
            [rewrite ?bool_decide_eq_true_2 in * by done
            |rewrite ?bool_decide_eq_false_2 in * by done];
            cbn in *; try specialize (Hpos eq_refl);
            rewrite ?lookup_insert_eq, ?lookup_insert_ne in * by done;
            repeat match goal with
                   | H : ?g !! ?x = _ |- _ => rewrite H in *
                   end;
            cbn in *; simplify_eq; try lia; try done).
  all: by injection Hstep as <- <-.
Qed.

Lemma leaders_insert (ps : list (pc (V:=V))) i p p' k :
  ps !! i = Some p →
  leaders k (<[i := p']> ps) + one_if (leading k p)
  = leaders k ps + one_if (leading k p').
Proof.
  revert i. induction ps as [|q ps IH]; intros [|i] Hi; simpl in Hi;
    simplify_eq; simpl.
  - unfold one_if. repeat case_match; lia.
  - specialize (IH i Hi). unfold one_if in *. repeat case_match; lia.
Qed.

Lemma leaders_pos (ps : list (pc (V:=V))) i p k :
  ps !! i = Some p → leading k p = true → 1 ≤ leaders k ps.
Proof.
  revert i. induction ps as [|q ps IH]; intros [|i] Hi Hl; simpl in Hi;
    simplify_eq; simpl.
  - rewrite Hl. lia.
  - specialize (IH i Hi Hl). lia.
Qed.

Lemma leaders_pos_inv (ps : list (pc (V:=V))) k :
  1 ≤ leaders k ps → ∃ i p, ps !! i = Some p ∧ leading k p = true.
Proof.
  induction ps as [|q ps IH]; simpl; [lia|]. intros Hpos.
  destruct (leading k q) eqn:Hq.
  - by exists 0, q.
  - destruct IH as (i & p & Hi & Hl); [simpl in Hpos; lia|].
    by exists (S i), p.
Qed.

Lemma step_counters_match c c' :
  counters_match c → step c c' → counters_match c'.
Proof.
  intros Hinv Hs k. inversion Hs as [i c0 c1 Hstep]; subst c0 c1.
  unfold sched_step in Hstep.
  destruct (existsb crashed c.1); [done|].
  destruct (c.1 !! i) as [p|] eqn:Hp; [|done]. simpl in Hstep.
  destruct (tstep p c.2) as [[p' s']|] eqn:Ht; [|done].
  simpl in Hstep. simplify_eq. simpl.
  pose proof (leaders_insert c.1 i p p' k Hp) as Hl.
  specialize (Hinv k).
  assert (Hpos : leading k p = true → 1 ≤ wg_count k c.2).
  { intros Hlead. rewrite Hinv. by eapply leaders_pos. }
  pose proof (tstep_counts p c.2 p' s' k Ht Hpos) as Hc.
  unfold one_if in *. repeat case_match; lia.
Qed.

Lemma rtc_counters_match c c' :
  counters_match c → rtc step c c' → counters_match c'.
Proof.
  intros Hinv Hsteps. induction Hsteps as [|c0 c1 c2 Hs _ IH]; [done|].
  apply IH. by eapply step_counters_match.
Qed.

(** A leader past its [wg.Add(1)] can always take its next step. *)
Lemma leading_enabled p s k :
  leading k p = true → is_Some (tstep p s).
Proof.
  intros Hl. destruct p; simpl in Hl; try done; simpl.
  - unfold act_deferred. pose proof (call_fetch_returns key s).
    destruct (call_fetch key s) as [[r|w|] s1]; simpl in *; try done; eauto.
  - unfold act_deferred. pose proof (store_item_returns key r.1 s).
    destruct (store_item key r.1 s) as [[[]|w|] s1]; simpl in *; try done; eauto.
  - unfold act_deferred. pose proof (unmark_returns key s).
    destruct (unmark key s) as [[[]|w|] s1]; simpl in *; try done; eauto.
  - unfold act. pose proof (wg_done_returns key s).
    destruct (wg_done key s) as [[[]|w|] s1]; simpl in *; try done; eauto.
Qed.

(** A goroutine that cannot step has finished or waits on a wait group
    whose counter is positive. *)
Lemma tstep_blocked p s :
  tstep p s = None →
  finished p = true
  ∨ ∃ k, (p = GetWait k ∨ p = UpdateWait k) ∧ 1 ≤ wg_count k s.
Proof.
  intros Hstep. destruct p; simpl in Hstep; try (by left).
  all: try (right; exists key;
            unfold act, wg_wait, wg_count in *;
            repeat (case_match; simplify_eq; cbn in * );
            split; [by eauto|lia]).
  all: exfalso;
    unfold act, act_deferred, read_item, being_fetched, reread_item, mark,
      call_fetch, store_item, unmark, wg_done, Clear, reset_items, GetAll,
      alloc in Hstep;
    cbn in Hstep; repeat (case_match; simplify_eq; cbn in * ).
Qed.

(** In every configuration reached from one where the counters match, a
    [Wait] on a key that no goroutine is leading returns at once: a
    follower is only ever held up by a leader that has yet to run its
    deferred [wg.Done()]. *)
Theorem waiters_pass_when_no_leader c c' k :
  counters_match c → rtc step c c' →
  leaders k c'.1 = 0 →
  tstep (GetWait k) c'.2 ≠ None ∧ tstep (UpdateWait k) c'.2 ≠ None.
Proof.
  intros Hinv Hsteps Hnone.
  pose proof (rtc_counters_match c c' Hinv Hsteps k) as Hk.
  rewrite Hnone in Hk.
  split; intros Hb; apply tstep_blocked in Hb as [Hf|(k' & [?|?] & Hpos)];
    simplify_eq; lia.
Qed.

(** No deadlock: in every configuration reached from one where the
    counters match, if no goroutine has panicked and some goroutine has not
    finished, then some goroutine can take a step. *)
Theorem reachable_configurations_can_step c c' i p :
  counters_match c → rtc step c c' →
  existsb crashed c'.1 = false →
  c'.1 !! i = Some p → finished p = false →
  ∃ c'', step c' c''.
Proof.
  intros Hinv Hsteps Hok Hp Hnf.
  pose proof (rtc_counters_match c c' Hinv Hsteps) as Hinv'.
  destruct (tstep p c'.2) as [[p1 s1]|] eqn:Ht.
  - eexists. apply (step_thread i). unfold sched_step.
    rewrite Hok, Hp. simpl. rewrite Ht. reflexivity.
  - apply tstep_blocked in Ht as [Hf|(k & _ & Hpos)]; [congruence|].
    rewrite (Hinv' k) in Hpos.
    apply leaders_pos_inv in Hpos as (j & q & Hj & Hq).
    destruct (leading_enabled q c'.2 k Hq) as [[q1 s1] Hstep].
    eexists. apply (step_thread j). unfold sched_step.
    rewrite Hok, Hj. simpl. rewrite Hstep. reflexivity.
Qed.

End progress.

(** * The draft methods *)

Section draft_facts.
Context {V W : Type}.
Implicit Types (s : Sys (V:=V + error) (W:=W)) (key : string).

Ltac eval_draft :=
  unfold Get_draft, read_item_unchecked, being_fetched, wg_wait, reread_item,
    mark, call_fetch, store_item, unmark, wg_done;
  unfold_M; unfold items_map, map_store, deref in *; cbn in *.

(** The draft [Get] caches a failed fetch: the error is stored as the value
    of the key and returned with [ok = false]; the in-flight flag is
    cleared; the next call finds the key, returns the stored error with
    [ok = true], and does not fetch. *)
Theorem Get_draft_caches_the_error key s l fl g
    (f : fetcher (V:=V + error) (W:=W)) v e w :
  items (this s) = Some l → deref l (mem s) !! key = None →
  isBeingFetchedMap (this s) = Some fl → default false (fl !! key) = false →
  isBeingFetchedWG (this s) = Some g → default 0 (g !! key) = 0 →
  fetch (this s) = Some f → f key (world (mem s)) = ((v, Some e), w) →
  (Get_draft key s).1 = Ret (Some (inr e), false)
  ∧ cached key (Some (inr e)) (Get_draft key s).2
  ∧ (being_fetched key (Get_draft key s).2).1 = Ret false
  ∧ calls (mem (Get_draft key s).2) = calls (mem s) ++ [key]
  ∧ Get_draft key (Get_draft key s).2
    = (Ret (Some (inr e), true), (Get_draft key s).2).
Proof.
  intros Hl Hmiss Hfl Hflag Hg Hcnt Hf Hres.
  destruct s as [[il fo fm wgs pw] [h w0 cs]]. cbn in *. simplify_eq.
  unfold cached. eval_draft.
  repeat first [rewrite Hmiss | rewrite Hflag | rewrite Hcnt | rewrite Hres
               | rewrite lookup_insert_eq | progress cbn].
  repeat split; try done.
  eexists. split; [done|]. by rewrite lookup_insert_eq.
Qed.

(** The draft [Get] has no nil check and no [defer]: on a cache with nil
    [items] whose in-flight tables exist it marks the key, calls the
    fetcher, and panics on the store; the key stays marked and its wait
    group is never [Done], so a later waiter would block for good. *)
Theorem Get_draft_nil_items_strands_waiters key s fl g
    (f : fetcher (V:=V + error) (W:=W)) r w :
  items (this s) = None →
  isBeingFetchedMap (this s) = Some fl → default false (fl !! key) = false →
  isBeingFetchedWG (this s) = Some g →
  fetch (this s) = Some f → f key (world (mem s)) = (r, w) →
  (Get_draft key s).1 = Panic nil_map_write
  ∧ calls (mem (Get_draft key s).2) = calls (mem s) ++ [key]
  ∧ (being_fetched key (Get_draft key s).2).1 = Ret true
  ∧ wg_count key (Get_draft key s).2 = S (wg_count key s)
  ∧ (wg_wait key (Get_draft key s).2).1 = Deadlock.
Proof.
  intros Hl Hfl Hflag Hg Hf Hres.
  destruct s as [[il fo fm wgs pw] [h w0 cs]]. cbn in *. simplify_eq.
  unfold wg_count. eval_draft.
  repeat first [rewrite Hflag | rewrite Hres
               | rewrite lookup_insert_eq | progress cbn].
  destruct r.2; cbn; by rewrite ?lookup_insert_eq.
Qed.

End draft_facts.

Section draft_snapshot_facts.
Context {V W : Type}.
Implicit Types (s : Sys (V:=V) (W:=W)).

(** The draft [GetAll] never returns nil: it returns a map that was not
    allocated before, empty when [items] is nil and with the contents of
    the value store otherwise, and leaves the cache as it is. *)
Theorem GetAll_draft_is_never_nil s :
  (∀ l, items (this s) = Some l → l ∈ dom (heap (mem s))) →
  ∃ l', (GetAll_draft s).1 = Ret l'
        ∧ (l' ∉ dom (heap (mem s)))
        ∧ this (GetAll_draft s).2 = this s
        ∧ deref l' (mem (GetAll_draft s).2) = default ∅ (items_map s)
        ∧ items_map (GetAll_draft s).2 = items_map s.
Proof.
  intros Hwf. unfold GetAll_draft. simpl. eexists. split; [done|].
  split; [apply alloc_fresh|]. split; [done|].
  pose proof (alloc_deref_new (mem s)) as Hnew.
  unfold alloc in Hnew. simpl in Hnew. rewrite Hnew.
  unfold items_map. simpl. destruct (items (this s)) as [l|] eqn:Hl; simpl.
  - pose proof (alloc_deref_old (mem s) l (Hwf l eq_refl)) as Hold.
    unfold alloc in Hold. simpl in Hold. rewrite Hold, copy_into_empty.
    assert (Hne : fresh (dom (heap (mem s))) ≠ l).
    { intros Heq. apply (is_fresh (dom (heap (mem s)))).
      rewrite Heq. by apply Hwf. }
    split.
    + unfold deref at 1. simpl. by rewrite lookup_insert_eq.
    + f_equal. unfold deref at 1. simpl. rewrite lookup_insert_ne by done.
      exact Hold.
  - split; [|done]. unfold deref at 1. simpl. rewrite lookup_insert_eq.
    simpl. apply copy_into_empty.
Qed.

End draft_snapshot_facts.

(** * The further properties on the concrete instance *)

Lemma New_prewarm_error_witness :
  New (Some demo_fetch) (Some failing_prewarm) mem0
  = ((None, Some (ErrUser 2)), mem0).
Proof.
  apply (New_prewarm_error (Some demo_fetch) failing_prewarm mem0 None).
  reflexivity.
Defined.

Lemma New_keeps_prewarm_map_witness :
  ∃ c, New (Some demo_fetch) (Some demo_prewarm) mem0
       = ((Some c, None), mem prewarmed_sys)
       ∧ items c = Some 0
       ∧ ∀ k v, Get k (mkSys c (map_store 0 k v (mem prewarmed_sys)))
                = (Ret (v, None),
                   mkSys c (map_store 0 k v (mem prewarmed_sys))).
Proof.
  apply (New_keeps_prewarm_map (Some demo_fetch) demo_prewarm mem0 0
           (mem prewarmed_sys)).
  reflexivity.
Defined.

Lemma Update_returns_after_one_fetch_witness :
  calls (mem (Update "k" fresh_sys).2) = calls (mem fresh_sys) ++ ["k"]
  ∧ ∃ f, fetch (this fresh_sys) = Some f
         ∧ (f "k" (world (mem fresh_sys))).1.2 = None.
Proof.
  apply (Update_returns_after_one_fetch "k" fresh_sys None
           (Update "k" fresh_sys).2).
  reflexivity.
Defined.

Lemma Update_refreshes_witness :
  (Update "k" (Get "k" fresh_sys).2).1 = Ret None
  ∧ calls (mem (Update "k" (Get "k" fresh_sys).2).2) = ["k"; "k"]
  ∧ Get "k" (Update "k" (Get "k" fresh_sys).2).2
    = (Ret (Some 1, None), (Update "k" (Get "k" fresh_sys).2).2).
Proof.
  apply (Update_refreshes "k" (Get "k" fresh_sys).2 0 demo_fetch (Some 1) 2).
  - reflexivity.
  - exists {[ "k" := false ]}, {[ "k" := 0 ]}.
    split; [reflexivity|]. split; [reflexivity|]. split; [reflexivity|].
    intros _. exists 0. reflexivity.
  - reflexivity.
  - reflexivity.
Defined.

Lemma Update_failure_keeps_store_witness :
  (Update "bad" fresh_sys).1 = Ret (Some (ErrUser 1))
  ∧ items_map (Update "bad" fresh_sys).2 = items_map fresh_sys
  ∧ ∀ v0, cached "bad" v0 fresh_sys →
          Get "bad" (Update "bad" fresh_sys).2
          = (Ret (v0, None), (Update "bad" fresh_sys).2).
Proof.
  apply (Update_failure_keeps_store "bad" fresh_sys demo_fetch None
           (ErrUser 1) 1).
  - exists ∅, ∅. split; [reflexivity|]. split; [reflexivity|].
    split; [reflexivity|]. intros H. discriminate H.
  - reflexivity.
  - reflexivity.
Defined.

Lemma Update_recovers_failed_Get_witness :
  (Get "k" flaky_sys).1 = Ret (None, Some (ErrUser 1))
  ∧ (Update "k" (Get "k" flaky_sys).2).1 = Ret None
  ∧ Get "k" (Update "k" (Get "k" flaky_sys).2).2
    = (Ret (Some 1, None), (Update "k" (Get "k" flaky_sys).2).2).
Proof.
  apply (Update_recovers_failed_Get "k" flaky_sys ∅ ∅ ∅ flaky_fetch
           None (ErrUser 1) 1 (Some 1) 2); reflexivity.
Defined.

Lemma Clear_then_Get_refetches_witness :
  (Get "k" (Clear (Get "k" fresh_sys).2).2).1 = Ret (Some 1, None)
  ∧ calls (mem (Get "k" (Clear (Get "k" fresh_sys).2).2).2) = ["k"; "k"]
  ∧ cached "k" (Some 1) (Get "k" (Clear (Get "k" fresh_sys).2).2).2.
Proof.
  apply (Clear_then_Get_refetches "k" (Get "k" fresh_sys).2
           {[ "k" := false ]} {[ "k" := 0 ]} demo_fetch (Some 1) 2);
    reflexivity.
Defined.

Lemma Clear_keeps_stuck_flag_witness :
  Get "bad" (Clear (Get "bad" fresh_sys).2).2
  = (Ret (None, None), (Clear (Get "bad" fresh_sys).2).2).
Proof.
  apply (Clear_keeps_stuck_flag "bad" fresh_sys ∅ ∅ ∅ demo_fetch
           None (ErrUser 1) 1); reflexivity.
Defined.

Lemma Get_miss_then_hit_witness :
  (Get "k" fresh_sys).1 = Ret (Some 0, None)
  ∧ calls (mem (Get "k" fresh_sys).2) = ["k"]
  ∧ (being_fetched "k" (Get "k" fresh_sys).2).1 = Ret false
  ∧ Get "k" (Get "k" fresh_sys).2
    = (Ret (Some 0, None), (Get "k" fresh_sys).2).
Proof.
  apply (Get_miss_then_hit "k" fresh_sys ∅ ∅ ∅ demo_fetch (Some 0) 1);
    reflexivity.
Defined.

Lemma calls_leave_wait_groups_balanced_witness :
  wg_count "bad" (execs [OpGet "k"; OpGet "bad"; OpUpdate "bad"; OpClear]
                        fresh_sys).2
  = wg_count "bad" fresh_sys.
Proof.
  apply (calls_leave_wait_groups_balanced
           [OpGet "k"; OpGet "bad"; OpUpdate "bad"; OpClear] fresh_sys
           [RGet (Some 0) None; RGet None (Some (ErrUser 1));
            RUpdate (Some (ErrUser 1)); RClear]).
  reflexivity.
Defined.

Lemma sequential_calls_never_block_witness :
  (execs [OpGet "bad"; OpGet "bad"; OpUpdate "bad"; OpGet "k"]
         fresh_sys).1 ≠ Deadlock.
Proof.
  apply (sequential_calls_never_block (Some demo_fetch) None mem0
           (this fresh_sys) (mem fresh_sys)).
  reflexivity.
Defined.

Lemma waiters_pass_when_no_leader_witness :
  tstep (GetWait "k")
        (default two_Gets
           (run_sched [0; 1; 0; 1; 0; 1; 0; 1; 0; 0; 0; 0; 1; 1; 1; 1]
                      two_Gets)).2 ≠ None
  ∧ tstep (UpdateWait "k")
          (default two_Gets
             (run_sched [0; 1; 0; 1; 0; 1; 0; 1; 0; 0; 0; 0; 1; 1; 1; 1]
                        two_Gets)).2 ≠ None.
Proof.
  apply (waiters_pass_when_no_leader two_Gets).
  - intros key. unfold wg_count. simpl. by rewrite lookup_empty.
  - apply (run_sched_steps
             [0; 1; 0; 1; 0; 1; 0; 1; 0; 0; 0; 0; 1; 1; 1; 1]).
    vm_compute. reflexivity.
  - reflexivity.
Defined.

Lemma reachable_configurations_can_step_witness :
  ∃ c'', step (default two_Gets
                 (run_sched [0; 1; 0; 1; 0; 1; 0; 1] two_Gets)) c''.
Proof.
  apply (reachable_configurations_can_step two_Gets _ 0
           (LeadFetching InGet "k" (Some 0, None))).
  - intros key. unfold wg_count. simpl. by rewrite lookup_empty.
  - apply (run_sched_steps [0; 1; 0; 1; 0; 1; 0; 1]).
    vm_compute. reflexivity.
  - reflexivity.
  - reflexivity.
  - reflexivity.
Defined.

Lemma Get_hits_under_interleaving_witness :
  tstep (GetStart "a")
        (default Gets_after_fetch
           (run_sched [1; 1; 1; 1; 1; 0; 1] Gets_after_fetch)).2
  = Some (Returned (RGet (Some 0) None),
          (default Gets_after_fetch
             (run_sched [1; 1; 1; 1; 1; 0; 1] Gets_after_fetch)).2).
Proof.
  apply (Get_hits_under_interleaving "a" (Some 0) Gets_after_fetch).
  - exists {[ "a" := Some 0 ]}. split; reflexivity.
  - repeat constructor.
  - apply (run_sched_steps [1; 1; 1; 1; 1; 0; 1]). vm_compute. reflexivity.
Defined.

Lemma Get_draft_caches_the_error_witness :
  (Get_draft "bad" draft_sys).1 = Ret (Some (inr (ErrUser 1)), false)
  ∧ cached "bad" (Some (inr (ErrUser 1))) (Get_draft "bad" draft_sys).2
  ∧ (being_fetched "bad" (Get_draft "bad" draft_sys).2).1 = Ret false
  ∧ calls (mem (Get_draft "bad" draft_sys).2) = ["bad"]
  ∧ Get_draft "bad" (Get_draft "bad" draft_sys).2
    = (Ret (Some (inr (ErrUser 1)), true), (Get_draft "bad" draft_sys).2).
Proof.
  apply (Get_draft_caches_the_error "bad" draft_sys 0 ∅ ∅ draft_fetch
           None (ErrUser 1) 1); reflexivity.
Defined.

Lemma Get_draft_nil_items_strands_waiters_witness :
  (Get_draft "k" draft_nil_sys).1 = Panic nil_map_write
  ∧ calls (mem (Get_draft "k" draft_nil_sys).2) = ["k"]
  ∧ (being_fetched "k" (Get_draft "k" draft_nil_sys).2).1 = Ret true
  ∧ wg_count "k" (Get_draft "k" draft_nil_sys).2 = 1
  ∧ (wg_wait "k" (Get_draft "k" draft_nil_sys).2).1 = Deadlock.
Proof.
  apply (Get_draft_nil_items_strands_waiters "k" draft_nil_sys ∅ ∅
           draft_fetch (Some (inl 0), None) 1); reflexivity.
Defined.

Lemma GetAll_draft_is_never_nil_witness :
  ∃ l', (GetAll_draft fresh_sys).1 = Ret l'
        ∧ (l' ∉ dom (heap (mem fresh_sys)))
        ∧ this (GetAll_draft fresh_sys).2 = this fresh_sys
        ∧ deref l' (mem (GetAll_draft fresh_sys).2)
          = default ∅ (items_map fresh_sys)
        ∧ items_map (GetAll_draft fresh_sys).2 = items_map fresh_sys.
Proof.
  apply (GetAll_draft_is_never_nil fresh_sys).
  intros l Hl. vm_compute in Hl. injection Hl as <-.
  apply elem_of_dom. exists ∅. vm_compute. reflexivity.
Defined.

(** * Only fetched keys are stored *)

Section provenance.
Context {V W : Type}.
Implicit Types (s : Sys (V:=V) (W:=W)) (key k : string).
Implicit Types (c : config (V:=V) (W:=W)) (p : pc (V:=V)).
Implicit Types base : gmap string (option V).

Lemma keys_fetched_frame base s s' :
  items (this s') = items (this s) →
  heap (mem s') = heap (mem s) →
  calls (mem s) ⊆ calls (mem s') →
  keys_fetched base s → keys_fetched base s'.
Proof.
  intros Hi Hh Hc [Hwf Hk]. split.
  - intros l Hl. rewrite Hh. apply Hwf. by rewrite <- Hi.
  - intros k Hin. unfold items_map, deref in *. rewrite Hi, Hh in Hin.
    destruct (Hk k Hin) as [?|?]; [by left|right; by apply Hc].
Qed.

Lemma keys_fetched_store base s key v l :
  items (this s) = Some l → key ∈ calls (mem s) →
  keys_fetched base s →
  keys_fetched base (mkSys (this s) (map_store l key v (mem s))).
Proof.
  intros Hl Hkey [Hwf Hk]. split.
  - intros l' Hl'. simpl in *. rewrite dom_insert_L.
    apply elem_of_union. right. by apply Hwf.
  - intros k. unfold items_map in *. simpl. rewrite Hl in *. simpl in *.
    rewrite map_store_same. destruct (decide (k = key)) as [->|Hne].
    + intros _. by right.
    + rewrite lookup_insert_ne by done. apply Hk.
Qed.

Lemma keys_fetched_Clear base s : keys_fetched base (Clear s).2.
Proof.
  unfold Clear, reset_items, alloc. simpl. split.
  - intros l Hl. simpl in *. simplify_eq. rewrite dom_insert_L.
    apply elem_of_union. left. by apply elem_of_singleton.
  - intros k. unfold items_map, deref. simpl. rewrite lookup_insert_eq. simpl.
    rewrite lookup_empty. by intros [? ?].
Qed.

Lemma keys_fetched_GetAll base s :
  keys_fetched base s → keys_fetched base (GetAll s).2.
Proof.
  intros [Hwf Hk]. unfold GetAll, alloc. simpl.
  assert (Hfresh : ∀ l, items (this s) = Some l →
                        fresh (dom (heap (mem s))) ≠ l).
  { intros l Hl Heq. apply (is_fresh (dom (heap (mem s)))).
    rewrite Heq. by apply Hwf. }
  destruct (items (this s)) as [l|] eqn:Hl; simpl; split.
  - intros l' Hl'. simpl in *. rewrite Hl in Hl'. simplify_eq.
    rewrite !dom_insert_L. apply elem_of_union. right.
    apply elem_of_union. right. by apply Hwf.
  - intros k. unfold items_map, deref in *. simpl. rewrite Hl in *.
    simpl in *. rewrite !lookup_insert_ne by (by apply Hfresh). apply Hk.
  - intros l' Hl'. simpl in *. by rewrite Hl in Hl'.
  - intros k. unfold items_map in *. simpl. rewrite Hl in *. apply Hk.
Qed.

Lemma act_inv {A} (x : M A) (kont : A → pc) s p' s' :
  act x kont s = Some (p', s') →
  s' = (x s).2
  ∧ ((∃ a, (x s).1 = Ret a ∧ p' = kont a) ∨ (∃ w, p' = Crashed w)).
Proof.
  unfold act. destruct (x s) as [[a|w|] s1]; intros H; simplify_eq; eauto.
Qed.

Lemma act_deferred_inv {A} key (x : M A) (kont : A → pc) s p' s' :
  act_deferred key x kont s = Some (p', s') →
  ((∃ a, (x s).1 = Ret a ∧ p' = kont a) ∧ s' = (x s).2)
  ∨ ((∃ w, p' = Crashed w) ∧ s' = (wg_done key (x s).2).2).
Proof.
  unfold act_deferred.
  destruct (x s) as [[a|w|] s1]; intros H; simplify_eq; eauto.
Qed.

(** The actions other than the fetch, the store, [Clear] and [GetAll]
    leave the value store, the heap and the fetch log as they are. *)
Lemma quiet_actions key s :
  let same (s' : Sys (V:=V) (W:=W)) :=
    items (this s') = items (this s) ∧ mem s' = mem s in
  same (read_item key s).2 ∧ same (reread_item key s).2
  ∧ same (being_fetched key s).2 ∧ same (wg_wait key s).2
  ∧ same (mark key s).2 ∧ same (unmark key s).2 ∧ same (wg_done key s).2.
Proof.
  unfold read_item, reread_item, being_fetched, wg_wait, mark, unmark,
    wg_done.
  simpl. repeat split; repeat case_match; done.
Qed.

Lemma keys_fetched_same base s s' :
  items (this s') = items (this s) ∧ mem s' = mem s →
  keys_fetched base s → keys_fetched base s'.
Proof.
  intros [Hi Hm] Hkf. eapply keys_fetched_frame; [done| |  |done];
    by rewrite Hm.
Qed.

Lemma call_fetch_effect key s :
  items (this (call_fetch key s).2) = items (this s)
  ∧ heap (mem (call_fetch key s).2) = heap (mem s)
  ∧ calls (mem s) ⊆ calls (mem (call_fetch key s).2)
  ∧ ∀ r, (call_fetch key s).1 = Ret r → key ∈ calls (mem (call_fetch key s).2).
Proof.
  unfold call_fetch. destruct (fetch (this s)) as [f|]; simpl.
  - destruct (f key (world (mem s))) as [r w]. simpl.
    repeat split; [set_solver|]. intros _ _. set_solver.
  - repeat split; [set_solver|]. by intros r.
Qed.

Lemma store_item_keys_fetched base key v s :
  key ∈ calls (mem s) → keys_fetched base s →
  keys_fetched base (store_item key v s).2
  ∧ calls (mem (store_item key v s).2) = calls (mem s).
Proof.
  intros Hkey Hkf. unfold store_item.
  destruct (items (this s)) as [l|] eqn:Hl; simpl; [|done].
  split; [|done]. by apply keys_fetched_store.
Qed.

Ltac quiet Hq :=
  match goal with
  | Hstep : act _ _ _ = Some _ |- _ =>
      let Hp' := fresh "Hp'" in
      apply act_inv in Hstep as (-> & Hp');
      split; [eapply keys_fetched_same; [exact Hq|done]|];
      split; [intros ?; destruct Hp' as [(a & _ & ->)|(w & ->)]; simpl;
              try done; by destruct a
             |by destruct Hq as [_ ->]]
  end.

Lemma tstep_stores_only_fetched base p s p' s' :
  keys_fetched base s →
  (∀ k, pending p = Some k → k ∈ calls (mem s)) →
  tstep p s = Some (p', s') →
  keys_fetched base s'
  ∧ (∀ k, pending p' = Some k → k ∈ calls (mem s'))
  ∧ calls (mem s) ⊆ calls (mem s').
Proof.
  intros Hkf Hpend Hstep.
  destruct p; simpl in Hstep, Hpend.
  all: try (pose proof (quiet_actions key s)
              as (Hq1 & Hq2 & Hq3 & Hq4 & Hq5 & Hq6 & Hq7)).
  all: try pose proof (call_fetch_effect key s) as (Hc1 & Hc2 & Hc3 & Hc4).
  - quiet Hq1.
  - quiet Hq3.
  - quiet Hq4.
  - quiet Hq2.
  - quiet Hq3.
  - quiet Hq4.
  - (* UpdateCall *)
    apply act_inv in Hstep as (-> & Hp').
    split; [by eapply keys_fetched_frame|]. split; [|done].
    intros k. destruct Hp' as [(a & Ha & ->)|(w & ->)]; simpl; [|done].
    intros ?; simplify_eq. by eapply Hc4.
  - (* UpdateFetching *)
    simplify_eq. split; [done|]. split; [|done].
    intros k. destruct r.2; simpl; [done|]. apply Hpend.
  - (* UpdateStore *)
    apply act_inv in Hstep as (-> & Hp').
    destruct (store_item_keys_fetched base key r.1 s) as [Hkf' Hcs];
      [by apply Hpend|done|].
    split; [done|]. split; [|by rewrite Hcs].
    intros k. by destruct Hp' as [(a & _ & ->)|(w & ->)].
  - quiet Hq5.
  - (* LeadCall *)
    apply act_deferred_inv in Hstep as [[(a & Ha & ->) ->]|[(w & ->) ->]].
    + split; [by eapply keys_fetched_frame|]. split; [|done].
      simpl. intros ??; simplify_eq. by eapply Hc4.
    + pose proof (quiet_actions key (call_fetch key s).2)
        as (_ & _ & _ & _ & _ & _ & Hd).
      split; [|split; [done|by destruct Hd as [_ ->]]].
      eapply keys_fetched_same; [exact Hd|]. by eapply keys_fetched_frame.
  - (* LeadFetching *)
    simplify_eq. split; [done|]. split; [|done].
    intros k. destruct r.2; simpl; [done|]. apply Hpend.
  - (* LeadStore *)
    destruct (store_item_keys_fetched base key r.1 s) as [Hkf' Hcs];
      [by apply Hpend|done|].
    apply act_deferred_inv in Hstep as [[(a & Ha & ->) ->]|[(w & ->) ->]].
    + split; [done|]. split; [done|by rewrite Hcs].
    + pose proof (quiet_actions key (store_item key r.1 s).2)
        as (_ & _ & _ & _ & _ & _ & Hd).
      split; [by eapply keys_fetched_same|].
      split; [done|]. destruct Hd as [_ ->]. by rewrite Hcs.
  - (* LeadUnmark *)
    apply act_deferred_inv in Hstep as [[(a & Ha & ->) ->]|[(w & ->) ->]].
    + split; [by eapply keys_fetched_same|]. split; [done|].
      by destruct Hq6 as [_ ->].
    + pose proof (quiet_actions key (unmark key s).2)
        as (_ & _ & _ & _ & _ & _ & Hd).
      split; [eapply keys_fetched_same; [exact Hd|];
              by eapply keys_fetched_same|].
      split; [done|]. destruct Hd as [_ ->]. by destruct Hq6 as [_ ->].
  - quiet Hq7.
  - (* ClearStart *)
    apply act_inv in Hstep as (-> & Hp').
    split; [apply keys_fetched_Clear|]. split; [|done].
    intros k. by destruct Hp' as [(a & _ & ->)|(w & ->)].
  - (* GetAllStart *)
    apply act_inv in Hstep as (-> & Hp').
    split; [by apply keys_fetched_GetAll|]. split.
    + intros k. by destruct Hp' as [(a & _ & ->)|(w & ->)].
    + unfold GetAll. simpl. by destruct (items (this s)).
  - done.
  - done.
Qed.

Lemma step_stores_only_fetched base c c' :
  stores_only_fetched base c → step c c' → stores_only_fetched base c'.
Proof.
  intros [Hkf Hall] Hs. inversion Hs as [i c0 c1 Hstep]; subst c0 c1.
  unfold sched_step in Hstep.
  destruct (existsb crashed c.1); [done|].
  destruct (c.1 !! i) as [p|] eqn:Hp; [|done]. simpl in Hstep.
  destruct (tstep p c.2) as [[p' s']|] eqn:Ht; [|done].
  simpl in Hstep. simplify_eq.
  destruct (tstep_stores_only_fetched base p c.2 p' s' Hkf) as (Hkf' & Hp' & Hc);
    [by apply (Forall_lookup_1 _ _ _ _ Hall Hp)|done|].
  split; [done|]. simpl. apply Forall_insert; [|done].
  eapply Forall_impl; [exact Hall|]. intros q Hq k Hk. by apply Hc, Hq.
Qed.

Lemma rtc_stores_only_fetched base c c' :
  stores_only_fetched base c → rtc step c c' → stores_only_fetched base c'.
Proof.
  intros Hinv Hsteps. induction Hsteps as [|c0 c1 c2 Hs _ IH]; [done|].
  apply IH. by eapply step_stores_only_fetched.
Qed.

(** Under every interleaving, a key is only ever in the value store if it
    was there at the start or the fetcher has been called for it: from a
    configuration whose goroutines hold no unstored value, whatever is
    cached later was in the initial store or is in the fetch log. *)
Theorem stored_keys_were_fetched c c' k v :
  (∀ l, items (this c.2) = Some l → l ∈ dom (heap (mem c.2))) →
  Forall (λ p, pending p = None) c.1 →
  rtc step c c' →
  cached k v c'.2 →
  is_Some (default ∅ (items_map c.2) !! k) ∨ k ∈ calls (mem c'.2).
Proof.
  intros Hwf Hnone Hsteps (its & Hits & Hk).
  assert (Hinv : stores_only_fetched (default ∅ (items_map c.2)) c).
  { split; [split; [done|by left]|].
    eapply Forall_impl; [exact Hnone|]. intros p Hp k' Hk'. congruence. }
  destruct (rtc_stores_only_fetched _ c c' Hinv Hsteps) as [[_ Hkeys] _].
  apply Hkeys. rewrite Hits. simpl. by rewrite Hk.
Qed.

End provenance.

Lemma stored_keys_were_fetched_witness :
  is_Some (default ∅ (items_map two_Gets.2) !! "k")
  ∨ "k" ∈ calls (mem (default two_Gets
                        (run_sched
                           [0; 1; 0; 1; 0; 1; 0; 1; 0; 0; 0; 0; 1; 1; 1; 1]
                           two_Gets)).2).
Proof.
  apply (stored_keys_were_fetched two_Gets _ "k" (Some 1)).
  - intros l Hl. vm_compute in Hl. injection Hl as <-.
    apply elem_of_dom. exists ∅. vm_compute. reflexivity.
  - repeat constructor.
  - apply (run_sched_steps
             [0; 1; 0; 1; 0; 1; 0; 1; 0; 0; 0; 0; 1; 1; 1; 1]).
    vm_compute. reflexivity.
  - exists {[ "k" := Some 1 ]}. split; reflexivity.
Defined.

Example GetAll_draft_zero_Cache :
  ∃ l, (GetAll_draft zero_sys).1 = Ret l
       ∧ deref l (mem (GetAll_draft zero_sys).2) = ∅.
Proof. eexists. split; reflexivity. Qed.
